(** * The vtgate Resolver and the topo replication graph

    A shallow embedding of [go/vt/vtgate/resolver.go] (the retry loop of
    [Resolver.Execute] and its siblings, [StrsEquals], [buildEntityIds],
    [insertSqlClause]) and of the update function of
    [topo.AddShardReplicationRecord], with the properties the
    specification states about them. *)

From Stdlib Require Import ZArith Ascii String Lia.
From stdpp Require Import base list strings sorting gmap pretty.

Local Open Scope Z_scope.

(** ** Go strings

    A Go string is a sequence of bytes; it is embedded as a Rocq [string]
    (a list of 8-bit [ascii]).  Indices are Go [int]s, embedded as [Z]. *)

Module GoString.

Definition len (s : string) : Z := Z.of_nat (String.length s).

(** [s[:i]] and [s[i:]], for [0 <= i <= len(s)]; Go panics outside this
    range, which [insertSqlClause] does not leave on ASCII text. *)
Definition slice_to (s : string) (i : Z) : string :=
  String.substring 0 (Z.to_nat i) s.
Definition slice_from (s : string) (i : Z) : string :=
  String.substring (Z.to_nat i) (String.length s - Z.to_nat i) s.

(** [strings.Index]: the byte index of the leftmost occurrence of [sep]
    in [s], or [-1]. *)
Definition Index (s sep : string) : Z :=
  match String.index 0 sep s with
  | Some n => Z.of_nat n
  | None => -1
  end.

(** [strings.Contains]. *)
Definition Contains (s substr : string) : bool := 0 <=? Index s substr.

(** [strings.ToLower] on ASCII text: the letters [A]..[Z] are mapped to
    [a]..[z], every other byte is kept.  On text that is not ASCII Go
    lower-cases rune by rune, which may change the byte length; the
    statements below that depend on [ToLower] are therefore made for
    [ascii_text]. *)
Definition lower_byte (c : ascii) : ascii :=
  let n := N_of_ascii c in
  if ((65 <=? n) && (n <=? 90))%N then ascii_of_N (n + 32) else c.

Fixpoint ToLower (s : string) : string :=
  match s with
  | EmptyString => EmptyString
  | String c s' => String (lower_byte c) (ToLower s')
  end.

Fixpoint ascii_text (s : string) : bool :=
  match s with
  | EmptyString => true
  | String c s' => (N_of_ascii c <? 128)%N && ascii_text s'
  end.

End GoString.

Import GoString.

(** ** [insertSqlClause] *)

(** One of the four guarded assignments
    [if idx := strings.Index(sql, kw); idx > 0 && idx < idxExtra { idxExtra = idx }]. *)
Definition clauseIdx (sql kw : string) (idxExtra : Z) : Z :=
  let idx := Index sql kw in
  if (0 <? idx) && (idx <? idxExtra) then idx else idxExtra.

(** The value of [idxExtra] when the buffer is written. *)
Definition idxExtraOf (querySql : string) : Z :=
  let sql := ToLower querySql in
  let idxExtra := len sql in
  let idxExtra := clauseIdx sql " group by" idxExtra in
  let idxExtra := clauseIdx sql " order by" idxExtra in
  let idxExtra := clauseIdx sql " limit" idxExtra in
  let idxExtra := clauseIdx sql " for update" idxExtra in
  idxExtra.

Definition insertSqlClause (querySql clause : string) : string :=
  let sql := ToLower querySql in
  let idxExtra := idxExtraOf querySql in
  let b := slice_to querySql idxExtra in
  let b := b +:+ (if Contains sql "where" then " and " else " where ") in
  let b := b +:+ clause in
  let b := if idxExtra <? len sql then b +:+ slice_from querySql idxExtra else b in
  b.

(** The four keywords that end the WHERE part of a statement. *)
Definition keywords : list string :=
  [" group by"; " order by"; " limit"; " for update"].

(** [kw] occurs in [s] at byte offset [j]. *)
Definition occurs_at (kw s : string) (j : nat) : Prop :=
  String.substring j (String.length kw) s = kw.

(** [i] is the offset of the leftmost occurrence of [kw] in [s]. *)
Definition leftmost (kw s : string) (i : nat) : Prop :=
  occurs_at kw s i ∧ ∀ j, (j < i)%nat → ¬ occurs_at kw s j.

(** [idx] is the least offset, among the leftmost occurrences of the
    keywords [kws] in [sql] that are not at offset 0, and the length of
    [sql] when there is none. *)
Definition splice_index (sql : string) (kws : list string) (idx : Z) : Prop :=
  0 ≤ idx ≤ len sql ∧
  (idx = len sql ∨ ∃ kw, kw ∈ kws ∧ 0 < idx ∧ leftmost kw sql (Z.to_nat idx)) ∧
  (∀ kw i, kw ∈ kws → leftmost kw sql i → (0 < i)%nat → idx ≤ Z.of_nat i).

(** A string that is empty or starts with a keyword. *)
Definition at_keyword (b : string) : Prop :=
  b = "" ∨ ∃ kw, kw ∈ keywords ∧ occurs_at kw b 0.

(** [clause], lower-cased and preceded by a space, contains no keyword. *)
Definition clause_free (clause : string) : bool :=
  forallb (λ kw, negb (Contains (" " +:+ ToLower clause) kw)) keywords.

(** The text written between the two parts of the statement, as it reads
    in the lower-cased copy. *)
Definition inserted (pfx clause : string) : string := pfx +:+ ToLower clause.

(** The prefix written before the clause. *)
Definition where_prefix (querySql : string) : string :=
  if Contains (ToLower querySql) "where" then " and " else " where ".

(** ** [StrsEquals] *)

(** [sort.Strings] sorts a slice in increasing order of Go's byte-wise
    string comparison.  That order is total and antisymmetric, so the
    sorted slice does not depend on the sorting algorithm. *)
Definition sort_Strings (a : list string) : list string := merge_sort String.le a.

(** [for i, v := range a { if v != b[i] { return false } }; return true],
    entered at index [i] with [a_rest] the elements of [a] from [i] on. *)
Fixpoint StrsEquals_range (i : nat) (a_rest b : list string) : bool :=
  match a_rest with
  | [] => true
  | v :: a_rest' =>
      match b !! i with
      | Some w => if decide (v ≠ w) then false else StrsEquals_range (S i) a_rest' b
      | None => false (* b[i] out of range; not reached, the lengths are equal *)
      end
  end.

(** [StrsEquals] sorts the backing arrays of the two slices it is given,
    so the caller's slices change too: the embedding returns the result
    together with the contents of [a] and of [b] after the call. *)
Definition StrsEquals (a b : list string) : bool * list string * list string :=
  if decide (length a ≠ length b) then (false, a, b)
  else
    let a := sort_Strings a in
    let b := sort_Strings b in
    (StrsEquals_range 0 a b, a, b).

(** ** [buildEntityIds] *)

(** [key.KeyspaceId] is a string type. *)
Definition KeyspaceId : Type := string.

(** The dynamic values a bind variable (an [interface{}]) holds. *)
Inductive BindValue : Type :=
  | ValKeyspaceId (kid : KeyspaceId)
  | ValString (s : string)
  | ValInt (n : Z).

Global Instance BindValue_eq_dec : EqDecision BindValue.
Proof. solve_decision. Defined.

(** The loop [for i, kid := range kids] of [buildEntityIds], entered at
    index [i]; [fmt.Sprintf("%v%v", entityColName, i)] is the column name
    followed by [i] in decimal. *)
Fixpoint buildEntityIds_kids (entityColName : string) (i : nat) (kids : list KeyspaceId)
    (bindVar : gmap string BindValue) (b : string) : gmap string BindValue * string :=
  match kids with
  | [] => (bindVar, b)
  | kid :: kids' =>
      let bvName := entityColName +:+ pretty i in
      let bindVar := <[bvName := ValKeyspaceId kid]> bindVar in
      let b := if decide (0 < i)%nat then b +:+ ", " else b in
      let b := b +:+ ":" +:+ bvName in
      buildEntityIds_kids entityColName (S i) kids' bindVar b
  end.

(** One iteration of [for shard, kids := range shardMap]. *)
Definition buildEntityIds_shard (qSql entityColName : string)
    (qBindVars : gmap string BindValue)
    (acc : list string * gmap string string * gmap string (gmap string BindValue))
    (entry : string * list KeyspaceId)
  : list string * gmap string string * gmap string (gmap string BindValue) :=
  let '(shards, sqls, bindVars) := acc in
  let '(shard, kids) := entry in
  let b := entityColName +:+ " in (" in
  let bindVar := map_fold (λ k v bindVar, <[k := v]> bindVar) ∅ qBindVars in
  let '(bindVar, b) := buildEntityIds_kids entityColName 0 kids bindVar b in
  let b := b +:+ ")" in
  (shards ++ [shard], <[shard := insertSqlClause qSql b]> sqls, <[shard := bindVar]> bindVars).

(** Go ranges over a map in an unspecified order: [buildEntityIds] is
    given the entries of [shardMap] in the order the [range] yields them. *)
Definition buildEntityIds (shardMap : list (string * list KeyspaceId))
    (qSql entityColName : string) (qBindVars : gmap string BindValue)
  : list string * gmap string string * gmap string (gmap string BindValue) :=
  foldl (buildEntityIds_shard qSql entityColName qBindVars) ([], ∅, ∅) shardMap.


(** The names [entityColName0], [entityColName1], ... of [n] keyspace ids
    and the predicate that lists them. *)
Definition entity_names (entityColName : string) (n : nat) : list string :=
  (λ i, entityColName +:+ pretty i) <$> seq 0 n.

Fixpoint join (sep : string) (l : list string) : string :=
  match l with
  | [] => ""
  | [x] => x
  | x :: l' => x +:+ sep +:+ join sep l'
  end.

Definition in_clause (entityColName : string) (n : nat) : string :=
  entityColName +:+ " in ("
    +:+ join ", " ((λ name, ":" +:+ name) <$> entity_names entityColName n) +:+ ")".


(** The text the loop over [kids] of [buildEntityIds] appends for [n]
    keyspace ids when it is entered at an index [i] other than 0. *)
Fixpoint more_names (entityColName : string) (i n : nat) : string :=
  match n with
  | O => ""
  | S n' => ", " +:+ ":" +:+ (entityColName +:+ pretty i)
              +:+ more_names entityColName (S i) n'
  end.

(** ** Errors and results *)

(** A Go [error] is either a [*ShardConnError], which carries a code, or
    some other error, of which only the message is kept. *)
Inductive error : Type :=
  | ShardConnError (Code : Z) (msg : string)
  | errorString (msg : string).

Global Instance error_eq_dec : EqDecision error.
Proof. solve_decision. Defined.

(** A Go result pair [(value, err)]: callers here look at the value only
    when [err] is [nil]. *)
Inductive result (A : Type) : Type :=
  | Ok (a : A)
  | Err (err : error).
Arguments Ok {A} a.
Arguments Err {A} err.

Definition err_of {A} (r : result A) : option error :=
  match r with Ok _ => None | Err err => Some err end.

(** ** The Resolver and its collaborators *)

(** The calls a Resolver makes to the topology and to ScatterConn, as it
    makes them, each with the error it came back with. *)
Inductive Call : Type :=
  | CallMapToShards (keyspace : string) (err : option error)
  | CallGetKeyspaceAlias (keyspace : string) (err : option error)
  | CallDispatch (keyspace : string) (shards : list string) (err : option error).

Global Instance Call_eq_dec : EqDecision Call.
Proof. solve_decision. Defined.

Definition is_dispatch (c : Call) : bool :=
  match c with CallDispatch _ _ _ => true | _ => false end.

(** [c] is a resolution or a dispatch that came back with the error [err]. *)
Definition returned_by (err : error) (c : Call) : Prop :=
  match c with
  | CallMapToShards _ (Some err') => err' = err
  | CallDispatch _ _ (Some err') => err' = err
  | _ => False
  end.

Section resolver.
(** [W] is the state of everything outside the Resolver: the topology,
    the tablets, the connections and the session behind its pointer.
    The request context and the receiver's [toposerv] and [cell] are
    passed on unchanged and are part of [W]. *)
Context {W QueryResult QueryResultList BoundQuery TabletType Session
         EntityKeyspaceIdMap SendReply : Type}.

(** What the Resolver calls: the topology lookups of [topo.go], the
    methods of [ScatterConn], the constant [tabletconn.ERR_RETRY] and the
    order in which a [range] yields the entries of a shard map. *)
Record Collaborators : Type := {
  ERR_RETRY : Z;
  getKeyspaceAlias : string → TabletType → W → result string * W;
  mapEntityIdsToShards :
    string → EntityKeyspaceIdMap → TabletType →
    W → result (gmap string (list KeyspaceId)) * W;
  scatterConn_Execute :
    string → gmap string BindValue → string → list string → TabletType → Session →
    W → result QueryResult * W;
  scatterConn_ExecuteBatch :
    list BoundQuery → string → list string → TabletType → Session →
    W → result QueryResultList * W;
  scatterConn_ExecuteEntityIds :
    list string → gmap string string → gmap string (gmap string BindValue) →
    string → TabletType → Session → W → result QueryResult * W;
  scatterConn_StreamExecute :
    string → gmap string BindValue → string → list string → TabletType → Session →
    SendReply → W → option error * W;
  range_shardMap :
    gmap string (list KeyspaceId) → W → list (string * list KeyspaceId) * W;
}.

(** The state a call runs in: the world and the calls made so far. *)
Record State : Type := { world : W; calls : list Call }.

Definition M (A : Type) : Type := State → A * State.
Definition ret {A} (a : A) : M A := λ st, (a, st).
Definition bind {A B} (m : M A) (k : A → M B) : M B :=
  λ st, let '(a, st') := m st in k a st'.

(** A call to a collaborator [f], recorded as [log r]. *)
Definition call {A} (f : W → A * W) (log : A → Call) : M A :=
  λ st, let '(r, w) := f (world st) in
        (r, {| world := w; calls := calls st ++ [log r] |}).

(** A [range] over a map: no call, only the nondeterminism of the order. *)
Definition range {A} (f : W → A * W) : M A :=
  λ st, let '(r, w) := f (world st) in (r, {| world := w; calls := calls st |}).

Variable env : Collaborators.

(** The type assertion of [err] to a pointer to [ShardConnError]
    succeeds and the code is [ERR_RETRY]. *)
Definition is_retry (err : error) : bool :=
  match err with
  | ShardConnError Code _ => Code =? ERR_RETRY env
  | errorString _ => false
  end.

(** What one turn of a retry loop ends in: [continue] with the new
    routing, or a [return]. *)
Inductive turn (S A : Type) : Type :=
  | Continue (s : S)
  | Return (r : result A).
Arguments Continue {S A} s.
Arguments Return {S A} r.

(** The vertical resharding check: the keyspace to go on with and the
    value of [resharding] after it.  An error of [getKeyspaceAlias]
    leaves both as they were. *)
Definition check_keyspace (keyspace : string) (alias : result string) : string * bool :=
  match alias with
  | Ok newKeyspace =>
      if decide (newKeyspace ≠ keyspace) then (newKeyspace, true) else (keyspace, false)
  | Err _ => (keyspace, false)
  end.

(** The horizontal resharding check: [StrsEquals] has sorted both
    slices when it compared them. *)
Definition check_shards (newShards shards : list string) (resharding : bool)
  : list string * bool :=
  let '(equal, newShards, shards) := StrsEquals newShards shards in
  if negb equal then (newShards, true) else (shards, resharding).

Section retry_loop.
(** [Execute] and [ExecuteBatch] have the same body up to the
    ScatterConn method they call; [dispatch] is that call with the
    arguments that do not change. *)
Context {A : Type}.
Variable dispatch : string → list string → W → result A * W.
Variable tabletType : TabletType.
Variable mapToShards : string → W → result (list string) * W.

Definition retry_turn (keyspace : string) (shards : list string)
  : M (turn (string * list string) A) :=
  bind (call (dispatch keyspace shards) (λ r, CallDispatch keyspace shards (err_of r)))
  (λ r,
    match r with
    | Err err =>
        if is_retry err then
          bind (call (getKeyspaceAlias env keyspace tabletType)
                     (λ r, CallGetKeyspaceAlias keyspace (err_of r)))
          (λ alias,
            let '(keyspace, resharding) := check_keyspace keyspace alias in
            bind (call (mapToShards keyspace) (λ r, CallMapToShards keyspace (err_of r)))
            (λ r,
              match r with
              | Err err' => ret (Return (Err err'))
              | Ok newShards =>
                  let '(shards, resharding) := check_shards newShards shards resharding in
                  if resharding then ret (Continue (keyspace, shards))
                  else ret (Return (Err err))
              end))
        else ret (Return (Err err))
    | Ok qr => ret (Return (Ok qr))
    end).

(** The [for] loop has no bound; [fuel] bounds the turns the
    embedding takes, and [None] is a loop that has not returned yet. *)
Fixpoint retry_loop (fuel : nat) (keyspace : string) (shards : list string)
  : M (option (result A)) :=
  match fuel with
  | O => ret None
  | S fuel' =>
      bind (retry_turn keyspace shards)
      (λ t,
        match t with
        | Continue (keyspace, shards) => retry_loop fuel' keyspace shards
        | Return r => ret (Some r)
        end)
  end.

Definition resolve_and_retry (fuel : nat) (keyspace : string) : M (option (result A)) :=
  bind (call (mapToShards keyspace) (λ r, CallMapToShards keyspace (err_of r)))
  (λ r,
    match r with
    | Err err => ret (Some (Err err))
    | Ok shards => retry_loop fuel keyspace shards
    end).
End retry_loop.

(** One turn of the loop of [Execute], the loop, and [Execute]. *)
Definition Execute_turn (sql : string) (bindVars : gmap string BindValue)
    (tabletType : TabletType) (session : Session)
    (mapToShards : string → W → result (list string) * W)
    (keyspace : string) (shards : list string)
  : M (turn (string * list string) QueryResult) :=
  retry_turn
    (λ keyspace shards,
       scatterConn_Execute env sql bindVars keyspace shards tabletType session)
    tabletType mapToShards keyspace shards.

Definition Execute_loop (fuel : nat) (sql : string) (bindVars : gmap string BindValue)
    (tabletType : TabletType) (session : Session)
    (mapToShards : string → W → result (list string) * W)
    (keyspace : string) (shards : list string)
  : M (option (result QueryResult)) :=
  retry_loop
    (λ keyspace shards,
       scatterConn_Execute env sql bindVars keyspace shards tabletType session)
    tabletType mapToShards fuel keyspace shards.

Definition Execute (fuel : nat) (sql : string) (bindVars : gmap string BindValue)
    (keyspace : string) (tabletType : TabletType) (session : Session)
    (mapToShards : string → W → result (list string) * W)
  : M (option (result QueryResult)) :=
  resolve_and_retry
    (λ keyspace shards,
       scatterConn_Execute env sql bindVars keyspace shards tabletType session)
    tabletType mapToShards fuel keyspace.

(** The same for [ExecuteBatch]. *)
Definition ExecuteBatch_turn (queries : list BoundQuery)
    (tabletType : TabletType) (session : Session)
    (mapToShards : string → W → result (list string) * W)
    (keyspace : string) (shards : list string)
  : M (turn (string * list string) QueryResultList) :=
  retry_turn
    (λ keyspace shards,
       scatterConn_ExecuteBatch env queries keyspace shards tabletType session)
    tabletType mapToShards keyspace shards.

Definition ExecuteBatch (fuel : nat) (queries : list BoundQuery)
    (keyspace : string) (tabletType : TabletType) (session : Session)
    (mapToShards : string → W → result (list string) * W)
  : M (option (result QueryResultList)) :=
  resolve_and_retry
    (λ keyspace shards,
       scatterConn_ExecuteBatch env queries keyspace shards tabletType session)
    tabletType mapToShards fuel keyspace.

(** [proto.EntityIdsQuery]; the loop assigns to its [Keyspace]. *)
Record EntityIdsQuery : Type := {
  Sql : string;
  BindVariables : gmap string BindValue;
  Keyspace : string;
  EntityColumnName : string;
  EntityKeyspaceIdMap_ : EntityKeyspaceIdMap;
  TabletType_ : TabletType;
  Session_ : Session;
}.

Definition set_Keyspace (query : EntityIdsQuery) (keyspace : string) : EntityIdsQuery :=
  {| Sql := Sql query; BindVariables := BindVariables query; Keyspace := keyspace;
     EntityColumnName := EntityColumnName query;
     EntityKeyspaceIdMap_ := EntityKeyspaceIdMap_ query;
     TabletType_ := TabletType_ query; Session_ := Session_ query |}.

(** [mapEntityIdsToShards] followed, when it succeeds, by
    [buildEntityIds] on the map it returned. *)
Definition resolve_entity_ids (query : EntityIdsQuery)
  : M (result (list string * gmap string string * gmap string (gmap string BindValue))) :=
  bind (call (mapEntityIdsToShards env (Keyspace query) (EntityKeyspaceIdMap_ query)
                (TabletType_ query))
             (λ r, CallMapToShards (Keyspace query) (err_of r)))
  (λ r,
    match r with
    | Err err => ret (Err err)
    | Ok shardMap =>
        bind (range (range_shardMap env shardMap))
        (λ entries,
          ret (Ok (buildEntityIds entries (Sql query) (EntityColumnName query)
                     (BindVariables query))))
    end).

Definition ExecuteEntityIds_turn (query : EntityIdsQuery)
    (routing : list string * gmap string string * gmap string (gmap string BindValue))
  : M (turn (EntityIdsQuery *
             (list string * gmap string string * gmap string (gmap string BindValue)))
            QueryResult) :=
  let '(shards, sqls, bindVars) := routing in
  bind (call (scatterConn_ExecuteEntityIds env shards sqls bindVars (Keyspace query)
                (TabletType_ query) (Session_ query))
             (λ r, CallDispatch (Keyspace query) shards (err_of r)))
  (λ r,
    match r with
    | Err err =>
        if is_retry err then
          bind (call (getKeyspaceAlias env (Keyspace query) (TabletType_ query))
                     (λ r, CallGetKeyspaceAlias (Keyspace query) (err_of r)))
          (λ alias,
            let '(keyspace, resharding) := check_keyspace (Keyspace query) alias in
            let query := set_Keyspace query keyspace in
            bind (resolve_entity_ids query)
            (λ r,
              match r with
              | Err err' => ret (Return (Err err'))
              | Ok (newShards, newSqls, newBindVars) =>
                  let '(equal, newShards, shards) := StrsEquals newShards shards in
                  let '(routing, resharding) :=
                    if negb equal then ((newShards, newSqls, newBindVars), true)
                    else ((shards, sqls, bindVars), resharding) in
                  if resharding then ret (Continue (query, routing))
                  else ret (Return (Err err))
              end))
        else ret (Return (Err err))
    | Ok qr => ret (Return (Ok qr))
    end).

Fixpoint ExecuteEntityIds_loop (fuel : nat) (query : EntityIdsQuery)
    (routing : list string * gmap string string * gmap string (gmap string BindValue))
  : M (option (result QueryResult)) :=
  match fuel with
  | O => ret None
  | S fuel' =>
      bind (ExecuteEntityIds_turn query routing)
      (λ t,
        match t with
        | Continue (query, routing) => ExecuteEntityIds_loop fuel' query routing
        | Return r => ret (Some r)
        end)
  end.

Definition ExecuteEntityIds (fuel : nat) (query : EntityIdsQuery)
  : M (option (result QueryResult)) :=
  bind (resolve_entity_ids query)
  (λ r,
    match r with
    | Err err => ret (Some (Err err))
    | Ok routing => ExecuteEntityIds_loop fuel query routing
    end).

(** [StreamExecute] has no loop. *)
Definition StreamExecute (sql : string) (bindVars : gmap string BindValue)
    (keyspace : string) (tabletType : TabletType) (session : Session)
    (mapToShards : string → W → result (list string) * W) (sendReply : SendReply)
  : M (option error) :=
  bind (call (mapToShards keyspace) (λ r, CallMapToShards keyspace (err_of r)))
  (λ r,
    match r with
    | Err err => ret (Some err)
    | Ok shards =>
        if decide (length shards ≠ 1%nat) then
          ret (Some (errorString "Resolved to more than one shard"))
        else
          call (scatterConn_StreamExecute env sql bindVars keyspace shards tabletType
                  session sendReply)
               (λ err, CallDispatch keyspace shards err)
    end).

End resolver.

Arguments Collaborators : clear implicits.
Arguments State : clear implicits.
Arguments Continue {S A} s.
Arguments Return {S A} r.

(** ** A scripted world

    The world counts the dispatches made.  The first dispatch fails with
    a retryable error and the later ones succeed; the topology resolves
    every keyspace to [shards0] before the first dispatch and to
    [shards1] after it, and answers [alias] to [getKeyspaceAlias]. *)
Module Scripted.

Definition retry_error : error := ShardConnError 1 "retry".

Definition mapToShards (shards0 shards1 : result (list string))
    (keyspace : string) (w : nat) : result (list string) * nat :=
  (if (w =? 0)%nat then shards0 else shards1, w).

Definition dispatch {A} (a : A) (w : nat) : result A * nat :=
  (if (w =? 0)%nat then Err retry_error else Ok a, S w).

Definition env (alias : result string)
  : Collaborators nat unit unit unit unit unit unit unit :=
  {| ERR_RETRY := 1;
     getKeyspaceAlias := λ _ _ w, (alias, w);
     mapEntityIdsToShards := λ _ _ _ w, (Ok ∅, w);
     scatterConn_Execute := λ _ _ _ _ _ _, dispatch ();
     scatterConn_ExecuteBatch := λ _ _ _ _ _, dispatch ();
     scatterConn_ExecuteEntityIds := λ _ _ _ _ _ _, dispatch ();
     scatterConn_StreamExecute := λ _ _ _ _ _ _ _ w, (None, S w);
     range_shardMap := λ m w, (map_to_list m, w) |}.

Definition start : State nat := {| world := 0%nat; calls := [] |}.

End Scripted.

(** ** The replication graph of [topo/replication.go] *)

Section replication.
(** [TabletAlias] and its method [IsZero] are declared in
    [topo/tablet.go]; aliases are compared with [==]. *)
Context {TabletAlias : Type} `{EqDecision TabletAlias}.
Variable IsZero : TabletAlias → bool.

Record ReplicationLink : Type := {
  TabletAlias_ : TabletAlias;
  Parent : TabletAlias;
}.

Record ShardReplication : Type := {
  ReplicationLinks : list ReplicationLink;
}.

(** The loop of the update function [f] of [AddShardReplicationRecord]
    over the links that are left, with [links] and [found] as they are
    on entry. *)
Fixpoint AddShardReplicationRecord_range (tabletAlias parent : TabletAlias)
    (rest : list ReplicationLink) (links : list ReplicationLink) (found : bool)
  : list ReplicationLink * bool :=
  match rest with
  | [] => (links, found)
  | link :: rest' =>
      if decide (TabletAlias_ link = tabletAlias) then
        if found then
          (* a second link for the tablet: deleted *)
          AddShardReplicationRecord_range tabletAlias parent rest' links found
        else if IsZero parent then
          (* no master now, the record is skipped *)
          AddShardReplicationRecord_range tabletAlias parent rest' links true
        else
          let link := {| TabletAlias_ := TabletAlias_ link; Parent := parent |} in
          AddShardReplicationRecord_range tabletAlias parent rest' (links ++ [link]) true
      else
        AddShardReplicationRecord_range tabletAlias parent rest' (links ++ [link]) found
  end.

(** The update function [f] that [AddShardReplicationRecord] hands to
    [UpdateShardReplicationFields]; it always returns a [nil] error. *)
Definition AddShardReplicationRecord_f (tabletAlias parent : TabletAlias)
    (sr : ShardReplication) : ShardReplication :=
  let '(links, found) :=
    AddShardReplicationRecord_range tabletAlias parent (ReplicationLinks sr) [] false in
  let links :=
    if negb found && negb (IsZero parent)
    then links ++ [{| TabletAlias_ := tabletAlias; Parent := parent |}]
    else links in
  {| ReplicationLinks := links |}.

(** The links of [tabletAlias] and the links of the other tablets, in
    the order of the list. *)
Definition links_of (tabletAlias : TabletAlias) (links : list ReplicationLink)
  : list ReplicationLink :=
  filter (λ link, TabletAlias_ link = tabletAlias) links.

Definition links_of_others (tabletAlias : TabletAlias) (links : list ReplicationLink)
  : list ReplicationLink :=
  filter (λ link, TabletAlias_ link ≠ tabletAlias) links.

End replication.

Arguments ReplicationLink : clear implicits.
Arguments ShardReplication : clear implicits.

(** ** The specification's words, for comparison *)

(** [insert_sql_clause] as the specification words it: the splice index
    is the least of the leftmost occurrences of the four keywords, and
    the end of the string when none occurs. *)
Definition insert_sql_clause_spec_index (sql : string) : Z :=
  foldr (λ kw idx, let i := Index sql kw in
                    if (0 <=? i) && (i <? idx) then i else idx)
        (len sql) keywords.

Definition insert_sql_clause_spec (sql clause : string) : string :=
  let lowered := ToLower sql in
  let idx := insert_sql_clause_spec_index lowered in
  slice_to sql idx
    +:+ (if Contains lowered "where" then " and " else " where ")
    +:+ clause +:+ slice_from sql idx.

(** The offsets at which [sub] occurs in [s]. *)
Definition occurrences (sub s : string) : list nat :=
  filter (λ j, String.substring j (String.length sub) s = sub)
         (seq 0 (S (String.length s))).

(** ** The rest of [topo/replication.go] *)

Section replication_lookup.
Context {TabletAlias : Type} `{EqDecision TabletAlias}.

(** [topo.ErrNoNode], a package variable declared in [topo/server.go]. *)
Variable ErrNoNode : error.

(** [GetReplicationLink], on the links of the receiver: the first link of
    the tablet, or the zero link and [ErrNoNode]. *)
Fixpoint GetReplicationLink (ReplicationLinks : list (ReplicationLink TabletAlias))
    (tabletAlias : TabletAlias) : result (ReplicationLink TabletAlias) :=
  match ReplicationLinks with
  | [] => Err ErrNoNode
  | rl :: rest =>
      if decide (TabletAlias_ rl = tabletAlias) then Ok rl
      else GetReplicationLink rest tabletAlias
  end.

(** The loop of the update function of [RemoveShardReplicationRecord],
    with [links] as it is on entry. *)
Fixpoint RemoveShardReplicationRecord_range (tabletAlias : TabletAlias)
    (rest links : list (ReplicationLink TabletAlias)) : list (ReplicationLink TabletAlias) :=
  match rest with
  | [] => links
  | link :: rest' =>
      if decide (TabletAlias_ link ≠ tabletAlias)
      then RemoveShardReplicationRecord_range tabletAlias rest' (links ++ [link])
      else RemoveShardReplicationRecord_range tabletAlias rest' links
  end.

(** The update function of [RemoveShardReplicationRecord]; it always
    returns a [nil] error. *)
Definition RemoveShardReplicationRecord_f (tabletAlias : TabletAlias)
    (sr : ShardReplication TabletAlias) : ShardReplication TabletAlias :=
  {| ReplicationLinks :=
       RemoveShardReplicationRecord_range tabletAlias (ReplicationLinks sr) [] |}.

(** The invariant the declaration of [ShardReplication] asks for: one
    link at most for a tablet. *)
Definition one_link_per_tablet (links : list (ReplicationLink TabletAlias)) : Prop :=
  NoDup (TabletAlias_ <$> links).

End replication_lookup.

(** ** The topology server behind [replication.go] *)

(** The calls made to the [topo.Server], in the order they are made. *)
Inductive TopoCall (TabletAlias : Type) : Type :=
  | CallUpdateShardReplicationFields (cell keyspace shard : string)
  | CallCreateShardReplication (cell keyspace shard : string)
  | CallGetShardReplication (cell keyspace shard : string)
  | CallGetTablet (alias : TabletAlias).
Arguments CallUpdateShardReplicationFields {TabletAlias} cell keyspace shard.
Arguments CallCreateShardReplication {TabletAlias} cell keyspace shard.
Arguments CallGetShardReplication {TabletAlias} cell keyspace shard.
Arguments CallGetTablet {TabletAlias} alias.

Definition is_update {TabletAlias} (c : TopoCall TabletAlias) : bool :=
  match c with CallUpdateShardReplicationFields _ _ _ => true | _ => false end.

Section topo_server.
(** [W] is the state of the topology server; [TabletInfo] is what
    [GetTablet] returns. *)
Context {W TabletAlias TabletInfo : Type} `{EqDecision TabletAlias}.

(** The interface [topo.Server] as far as [replication.go] uses it, with
    the declarations of the package it relies on: [ErrNoNode], the field
    [Cell] and the method [IsZero] of a [TabletAlias], and the test
    [ti.Type == TYPE_SCRAP] on a tablet.  An update function is handed the
    object and returns it as it has changed it, with its error. *)
Record Server : Type := {
  ErrNoNode : error;
  Cell : TabletAlias → string;
  IsZero : TabletAlias → bool;
  is_TYPE_SCRAP : TabletInfo → bool;
  UpdateShardReplicationFields :
    string → string → string →
    (ShardReplication TabletAlias → ShardReplication TabletAlias * option error) →
    W → option error * W;
  CreateShardReplication :
    string → string → string → ShardReplication TabletAlias → W → option error * W;
  GetShardReplication :
    string → string → string → W → result (ShardReplication TabletAlias) * W;
  GetTablet : TabletAlias → W → result TabletInfo * W;
}.

Record TopoState : Type := { topo : W; topo_calls : list (TopoCall TabletAlias) }.

(** A call to the server [f], recorded as [c]. *)
Definition topo_call {A} (f : W → A * W) (c : TopoCall TabletAlias) (st : TopoState)
  : A * TopoState :=
  let '(r, w) := f (topo st) in
  (r, {| topo := w; topo_calls := topo_calls st ++ [c] |}).

Variable ts : Server.

Definition AddShardReplicationRecord (keyspace shard : string)
    (tabletAlias parent : TabletAlias) (st : TopoState) : option error * TopoState :=
  let f := λ sr, (AddShardReplicationRecord_f (IsZero ts) tabletAlias parent sr, None) in
  let '(err, st) :=
    topo_call (UpdateShardReplicationFields ts (Cell ts tabletAlias) keyspace shard f)
      (CallUpdateShardReplicationFields (Cell ts tabletAlias) keyspace shard) st in
  if decide (err = Some (ErrNoNode ts)) then
    (* the object does not exist: it is created now *)
    let '(err, st) :=
      topo_call (CreateShardReplication ts (Cell ts tabletAlias) keyspace shard
                   {| ReplicationLinks := [] |})
        (CallCreateShardReplication (Cell ts tabletAlias) keyspace shard) st in
    match err with
    | Some err => (Some err, st)
    | None =>
        topo_call (UpdateShardReplicationFields ts (Cell ts tabletAlias) keyspace shard f)
          (CallUpdateShardReplicationFields (Cell ts tabletAlias) keyspace shard) st
    end
  else (err, st).

Definition RemoveShardReplicationRecord (keyspace shard : string)
    (tabletAlias : TabletAlias) (st : TopoState) : option error * TopoState :=
  topo_call
    (UpdateShardReplicationFields ts (Cell ts tabletAlias) keyspace shard
       (λ sr, (RemoveShardReplicationRecord_f tabletAlias sr, None)))
    (CallUpdateShardReplicationFields (Cell ts tabletAlias) keyspace shard) st.

(** The loop of [FixShardReplication] over the links that are left. *)
Fixpoint FixShardReplication_range (keyspace shard : string)
    (links : list (ReplicationLink TabletAlias)) (st : TopoState)
  : option error * TopoState :=
  match links with
  | [] => (None, st)
  | rl :: rest =>
      let '(r, st) :=
        topo_call (GetTablet ts (TabletAlias_ rl)) (CallGetTablet (TabletAlias_ rl)) st in
      match r with
      | Err err =>
          if decide (err = ErrNoNode ts)
          then RemoveShardReplicationRecord keyspace shard (TabletAlias_ rl) st
          else (Some err, st)
      | Ok ti =>
          if is_TYPE_SCRAP ts ti
          then RemoveShardReplicationRecord keyspace shard (TabletAlias_ rl) st
          else FixShardReplication_range keyspace shard rest st
      end
  end.

Definition FixShardReplication (cell keyspace shard : string) (st : TopoState)
  : option error * TopoState :=
  let '(r, st) :=
    topo_call (GetShardReplication ts cell keyspace shard)
      (CallGetShardReplication cell keyspace shard) st in
  match r with
  | Err err => (Some err, st)
  | Ok sri => FixShardReplication_range keyspace shard (ReplicationLinks sri) st
  end.

(** What a server that stores the objects does, seen through [read], the
    object stored for a cell, a keyspace and a shard: an update of an
    object that is not there fails with [ErrNoNode] and changes nothing;
    an update of an object that is there, by a function that returns no
    error, stores what the function made of it; the creation of an object
    that is not there stores it; no other object changes. *)
Record stores (read : W → string * string * string → option (ShardReplication TabletAlias))
  : Prop := {
  update_absent : ∀ cell keyspace shard f w,
    read w (cell, keyspace, shard) = None →
    UpdateShardReplicationFields ts cell keyspace shard f w = (Some (ErrNoNode ts), w);
  update_present : ∀ cell keyspace shard f w sr sr',
    read w (cell, keyspace, shard) = Some sr →
    f sr = (sr', None) →
    ∃ w', UpdateShardReplicationFields ts cell keyspace shard f w = (None, w') ∧
          read w' (cell, keyspace, shard) = Some sr' ∧
          ∀ k, k ≠ (cell, keyspace, shard) → read w' k = read w k;
  create_absent : ∀ cell keyspace shard sr w,
    read w (cell, keyspace, shard) = None →
    ∃ w', CreateShardReplication ts cell keyspace shard sr w = (None, w') ∧
          read w' (cell, keyspace, shard) = Some sr ∧
          ∀ k, k ≠ (cell, keyspace, shard) → read w' k = read w k;
}.

End topo_server.

Arguments Server : clear implicits.
Arguments TopoState : clear implicits.

(** ** A server in memory

    Tablet aliases are a cell and a uid; the server keeps the replication
    objects and, for each tablet it knows, whether it is scrapped. *)
Module MemServer.

Definition alias : Type := string * nat.

Record world : Type := {
  objects : gmap (string * string * string) (ShardReplication alias);
  tablets : gmap alias bool;
}.

Definition no_node : error := errorString "node doesn't exist".

Definition update (cell keyspace shard : string)
    (f : ShardReplication alias → ShardReplication alias * option error) (w : world)
  : option error * world :=
  match objects w !! (cell, keyspace, shard) with
  | None => (Some no_node, w)
  | Some sr =>
      match f sr with
      | (sr', None) =>
          (None, {| objects := <[(cell, keyspace, shard) := sr']> (objects w);
                    tablets := tablets w |})
      | (_, Some err) => (Some err, w)
      end
  end.

Definition create (cell keyspace shard : string) (sr : ShardReplication alias) (w : world)
  : option error * world :=
  match objects w !! (cell, keyspace, shard) with
  | Some _ => (Some (errorString "node already exists"), w)
  | None =>
      (None, {| objects := <[(cell, keyspace, shard) := sr]> (objects w);
                tablets := tablets w |})
  end.

Definition ts : Server world alias bool :=
  {| ErrNoNode := no_node;
     Cell := fst;
     IsZero := λ a, bool_decide (a = (""%string, 0%nat));
     is_TYPE_SCRAP := λ scrapped, scrapped;
     UpdateShardReplicationFields := update;
     CreateShardReplication := create;
     GetShardReplication := λ cell keyspace shard w,
       (match objects w !! (cell, keyspace, shard) with
        | Some sr => Ok sr
        | None => Err no_node
        end, w);
     GetTablet := λ a w,
       (match tablets w !! a with Some scrapped => Ok scrapped | None => Err no_node end, w) |}.

Definition read (w : world) (k : string * string * string)
  : option (ShardReplication alias) := objects w !! k.

Definition start (w : world) : TopoState world alias := {| topo := w; topo_calls := [] |}.

End MemServer.

(** The list [AddShardReplicationRecord] makes for a parent that is not
    zero, said directly: the first link of the tablet is replaced where
    it stands and the later ones are dropped; a tablet without a link
    gets one at the end. *)
Fixpoint set_parent {TabletAlias : Type} `{EqDecision TabletAlias}
    (tabletAlias parent : TabletAlias) (links : list (ReplicationLink TabletAlias))
  : list (ReplicationLink TabletAlias) :=
  match links with
  | [] => [{| TabletAlias_ := tabletAlias; Parent := parent |}]
  | link :: rest =>
      if decide (TabletAlias_ link = tabletAlias)
      then {| TabletAlias_ := tabletAlias; Parent := parent |}
             :: links_of_others tabletAlias rest
      else link :: set_parent tabletAlias parent rest
  end.

(** ** More about the Resolver *)

(** The routing of [ExecuteEntityIds] is consistent: the statements and
    the bind variables are those of the shards of the list. *)
Definition routing_ok
    (routing : list string * gmap string string * gmap string (gmap string BindValue))
  : Prop :=
  dom routing.1.2 = list_to_set routing.1.1 ∧ dom routing.2 = list_to_set routing.1.1.

(** A world in which resharding never settles: every dispatch fails with
    a retryable error, and the keyspace resolves to shard ["0"] after an
    even number of dispatches and to shard ["1"] after an odd one. *)
Module Flapping.

Definition shards_at (w : nat) : list string :=
  if Nat.even w then ["0"] else ["1"].

Definition mapToShards (keyspace : string) (w : nat) : result (list string) * nat :=
  (Ok (shards_at w), w).

Definition dispatch {A} (w : nat) : result A * nat :=
  (Err Scripted.retry_error, S w).

Definition env : Collaborators nat unit unit unit unit unit unit unit :=
  {| ERR_RETRY := 1;
     getKeyspaceAlias := λ keyspace _ w, (Ok keyspace, w);
     mapEntityIdsToShards := λ _ _ _ w, (Ok ∅, w);
     scatterConn_Execute := λ _ _ _ _ _ _, dispatch;
     scatterConn_ExecuteBatch := λ _ _ _ _ _, dispatch;
     scatterConn_ExecuteEntityIds := λ _ _ _ _ _ _, dispatch;
     scatterConn_StreamExecute := λ _ _ _ _ _ _ _ w, (None, S w);
     range_shardMap := λ m w, (map_to_list m, w) |}.

End Flapping.

(** * Facts about Go strings *)

Example insertSqlClause_order_limit :
  insertSqlClause "SELECT * FROM t WHERE a=1 ORDER BY b LIMIT 10" "id in (:e0,:e1)"
  = "SELECT * FROM t WHERE a=1 and id in (:e0,:e1) ORDER BY b LIMIT 10".
Proof. vm_compute. reflexivity. Qed.

Example insertSqlClause_no_where :
  insertSqlClause "select * from t" "id in (:e0)" = "select * from t where id in (:e0)".
Proof. vm_compute. reflexivity. Qed.

Example insertSqlClause_leading_keyword :
  insertSqlClause " limit 1" "c" = " limit 1 where c".
Proof. vm_compute. reflexivity. Qed.


Section string_facts.
Local Open Scope nat_scope.

Lemma str_app_cons c (a b : string) : String c a +:+ b = String c (a +:+ b).
Proof. reflexivity. Qed.

Lemma str_app_nil_l (b : string) : "" +:+ b = b.
Proof. reflexivity. Qed.

Lemma str_app_nil_r (a : string) : a +:+ "" = a.
Proof. induction a as [|c a IH]; [done|]. by rewrite str_app_cons, IH. Qed.

Lemma str_app_assoc (a b c : string) : (a +:+ b) +:+ c = a +:+ b +:+ c.
Proof. induction a as [|x a IH]; [done|]. by rewrite !str_app_cons, IH. Qed.

Lemma str_length_app (a b : string) :
  String.length (a +:+ b) = String.length a + String.length b.
Proof. induction a as [|c a IH]; [done|]. rewrite str_app_cons. simpl. by rewrite IH. Qed.

Lemma get_ge (s : string) n : String.length s ≤ n → String.get n s = None.
Proof.
  revert n. induction s as [|c s IH]; intros [|n] Hn; simpl in *; try done; try lia.
  apply IH. lia.
Qed.

Lemma get_lt (s : string) n : n < String.length s → is_Some (String.get n s).
Proof.
  revert n. induction s as [|c s IH]; intros [|n] Hn; simpl in *; try lia; eauto.
  apply IH. lia.
Qed.

Lemma get_Some_lt (s : string) n c : String.get n s = Some c → n < String.length s.
Proof.
  intros H. destruct (decide (n < String.length s)) as [|Hge]; [done|].
  rewrite get_ge in H by lia. done.
Qed.

Lemma get_app (a b : string) n :
  String.get n (a +:+ b) =
  if decide (n < String.length a) then String.get n a
  else String.get (n - String.length a) b.
Proof.
  revert n. induction a as [|c a IH]; intros n.
  - rewrite str_app_nil_l. simpl. by rewrite Nat.sub_0_r.
  - rewrite str_app_cons. destruct n as [|n]; simpl; [done|].
    rewrite IH. repeat case_decide; try lia; done.
Qed.

Lemma get_substring (s : string) n m p :
  String.get p (String.substring n m s) =
  if decide (p < m) then String.get (n + p) s else None.
Proof.
  case_decide.
  - rewrite String.substring_correct1 by done. f_equal. lia.
  - apply String.substring_correct2. lia.
Qed.

Lemma occurs_at_get kw s j :
  occurs_at kw s j ↔ ∀ t, t < String.length kw → String.get (j + t) s = String.get t kw.
Proof.
  unfold occurs_at. split.
  - intros H t Ht. pose proof (get_substring s j (String.length kw) t) as G.
    rewrite H, decide_True in G by done. done.
  - intros H. apply String.get_correct. intros n. rewrite get_substring.
    case_decide; [by apply H|]. symmetry. apply get_ge. lia.
Qed.

Lemma occurs_at_bound kw s j :
  kw ≠ "" → occurs_at kw s j → j + String.length kw ≤ String.length s.
Proof.
  intros Hne H. destruct kw as [|c kw]; [done|].
  pose proof (proj1 (occurs_at_get _ _ _) H (String.length kw)) as Hl.
  simpl String.length in Hl. specialize (Hl ltac:(lia)).
  destruct (get_lt (String c kw) (String.length kw)) as [x Hx]; [simpl; lia|].
  rewrite Hx in Hl. apply get_Some_lt in Hl. simpl. lia.
Qed.

(** The four outcomes of [strings.Index]. *)
Lemma Index_found s kw i :
  Index s kw = Z.of_nat i → leftmost kw s i.
Proof.
  unfold Index. destruct (String.index 0 kw s) as [n|] eqn:E; [|lia].
  intros Hn. assert (n = i) as -> by lia. split.
  - by eapply String.index_correct1.
  - intros j Hj. eapply String.index_correct2; [done|lia|done].
Qed.

Lemma Index_range s kw : (-1 ≤ Index s kw)%Z.
Proof. unfold Index. destruct (String.index 0 kw s); lia. Qed.

Lemma Index_not_found s kw j :
  kw ≠ "" → Index s kw = (-1)%Z → ¬ occurs_at kw s j.
Proof.
  unfold Index. destruct (String.index 0 kw s) as [n|] eqn:E; [lia|].
  intros Hne _. eapply String.index_correct3; [done|done|lia].
Qed.

Lemma Index_cases s kw :
  kw ≠ "" →
  (Index s kw = (-1)%Z ∧ ∀ j, ¬ occurs_at kw s j) ∨
  (∃ i, Index s kw = Z.of_nat i ∧ leftmost kw s i).
Proof.
  intros Hne. destruct (decide (Index s kw = (-1)%Z)) as [E|E].
  - left. split; [done|]. intros j. by apply Index_not_found.
  - right. pose proof (Index_range s kw). exists (Z.to_nat (Index s kw)).
    assert (Index s kw = Z.of_nat (Z.to_nat (Index s kw))) as Hi by lia.
    split; [done|]. by apply Index_found.
Qed.

Lemma leftmost_unique kw s i j : leftmost kw s i → leftmost kw s j → i = j.
Proof.
  intros [Hi Hli] [Hj Hlj].
  destruct (lt_eq_lt_dec i j) as [[Hlt| ->]|Hlt]; [|done|].
  - by destruct (Hlj i).
  - by destruct (Hli j).
Qed.

Lemma Index_leftmost s kw i :
  kw ≠ "" → leftmost kw s i → Index s kw = Z.of_nat i.
Proof.
  intros Hne Hl. destruct (Index_cases s kw Hne) as [[_ Hno]|(n & -> & Hn)].
  - destruct Hl as [Ho _]. by destruct (Hno i).
  - f_equal. by eapply leftmost_unique.
Qed.

Lemma Index_absent s kw :
  kw ≠ "" → (∀ j, ¬ occurs_at kw s j) → Index s kw = (-1)%Z.
Proof.
  intros Hne Hno. destruct (Index_cases s kw Hne) as [[E _]|(n & _ & Hn & _)]; [done|].
  by destruct (Hno n).
Qed.

Lemma Contains_occurs s kw :
  kw ≠ "" → Contains s kw = true ↔ ∃ j, occurs_at kw s j.
Proof.
  intros Hne. unfold Contains. rewrite Z.leb_le. split.
  - intros H. destruct (Index_cases s kw Hne) as [[E _]|(n & _ & Hn & _)]; [lia|eauto].
  - intros [j Hj]. destruct (Index_cases s kw Hne) as [[_ Hno]|(n & -> & _)]; [|lia].
    by destruct (Hno j).
Qed.

(** [ToLower] works byte by byte. *)
Lemma length_ToLower s : String.length (ToLower s) = String.length s.
Proof. induction s as [|c s IH]; simpl; [done|]. by rewrite IH. Qed.

Lemma ToLower_app a b : ToLower (a +:+ b) = ToLower a +:+ ToLower b.
Proof. induction a as [|c a IH]; [done|]. rewrite !str_app_cons. simpl. by rewrite str_app_cons, IH. Qed.

Lemma ToLower_substring n m s :
  ToLower (String.substring n m s) = String.substring n m (ToLower s).
Proof.
  revert n m. induction s as [|c s IH]; intros [|n] [|m]; simpl; try done;
    by rewrite IH.
Qed.

(** Cutting a string at [n] and gluing the two parts again. *)
Lemma substring_split s n :
  n ≤ String.length s →
  String.substring 0 n s +:+ String.substring n (String.length s - n) s = s.
Proof.
  intros Hn. apply String.get_correct. intros p.
  rewrite get_app, !get_substring.
  assert (String.length (String.substring 0 n s) = n) as Hlen.
  { clear p. revert n Hn. induction s as [|c s IH]; intros [|n] Hn; simpl in *; try done; try lia.
    rewrite IH; [done|lia]. }
  rewrite Hlen. repeat case_decide; try lia; try done.
  - f_equal. lia.
  - symmetry. apply get_ge. lia.
Qed.

Lemma length_substring_0 s n :
  n ≤ String.length s → String.length (String.substring 0 n s) = n.
Proof.
  revert n. induction s as [|c s IH]; intros [|n] Hn; simpl in *; try done; try lia.
  rewrite IH; [done|lia].
Qed.

End string_facts.

(** * The splice index of [insertSqlClause] *)

Lemma keywords_nonempty kw : kw ∈ keywords → kw ≠ "".
Proof.
  unfold keywords. rewrite !elem_of_cons, elem_of_nil.
  intros [->|[->|[->|[->|[]]]]]; done.
Qed.

Ltac kw_mem := unfold keywords; repeat constructor.

Lemma splice_index_nil sql : splice_index sql [] (len sql).
Proof.
  unfold splice_index, len. split_and!; [lia|lia|by left|].
  intros kw i Hkw. by apply elem_of_nil in Hkw.
Qed.

Lemma splice_index_step sql kws kw cur :
  kw ≠ "" → splice_index sql kws cur →
  splice_index sql (kws ++ [kw]) (clauseIdx sql kw cur).
Proof.
  intros Hne (Hr & Hat & Hmin). unfold clauseIdx.
  destruct (Index_cases sql kw Hne) as [[E Hno]|(i & E & Hl)]; rewrite E.
  - replace (0 <? -1) with false by done. simpl. split_and!; [lia|lia| |].
    + destruct Hat as [?|(k & ? & ? & ?)]; [by left|right].
      exists k. rewrite elem_of_app. eauto.
    + intros k j [Hk|Hk%list_elem_of_singleton]%elem_of_app Hj Hpos; [eauto|].
      subst k. destruct Hj as [Hj _]. by destruct (Hno j).
  - destruct ((0 <? Z.of_nat i) && (Z.of_nat i <? cur)) eqn:Hc.
    + apply andb_true_iff in Hc as [H0%Z.ltb_lt Hi%Z.ltb_lt].
      split_and!; [lia|lia| |].
      * right. exists kw. rewrite elem_of_app, list_elem_of_singleton.
        split_and!; [by right|lia|by rewrite Nat2Z.id].
      * intros k j [Hk|Hk%list_elem_of_singleton]%elem_of_app Hj Hpos.
        -- specialize (Hmin k j Hk Hj Hpos). lia.
        -- subst k. by rewrite (leftmost_unique _ _ _ _ Hj Hl).
    + apply andb_false_iff in Hc. split_and!; [lia|lia| |].
      * destruct Hat as [?|(k & ? & ? & ?)]; [by left|right].
        exists k. rewrite elem_of_app. eauto.
      * intros k j [Hk|Hk%list_elem_of_singleton]%elem_of_app Hj Hpos; [eauto|].
        subst k. rewrite (leftmost_unique _ _ _ _ Hj Hl) in *.
        destruct Hc as [Hc%Z.ltb_ge|Hc%Z.ltb_ge]; lia.
Qed.

Lemma idxExtraOf_splice_index querySql :
  splice_index (ToLower querySql) keywords (idxExtraOf querySql).
Proof.
  unfold idxExtraOf.
  change keywords with (((([] ++ [" group by"]) ++ [" order by"]) ++ [" limit"]) ++ [" for update"]).
  repeat (apply splice_index_step; [done|]).
  apply splice_index_nil.
Qed.

Lemma len_ToLower s : len (ToLower s) = len s.
Proof. unfold len. by rewrite length_ToLower. Qed.

Lemma substring_0_length n (s : string) : String.substring n 0 s = "".
Proof. revert n. induction s as [|c s IH]; intros [|n]; simpl; auto. Qed.

Lemma insertSqlClause_unfold querySql clause :
  insertSqlClause querySql clause =
  slice_to querySql (idxExtraOf querySql)
    +:+ (if Contains (ToLower querySql) "where" then " and " else " where ")
    +:+ clause +:+ slice_from querySql (idxExtraOf querySql).
Proof.
  unfold insertSqlClause.
  destruct (idxExtraOf_splice_index querySql) as (Hr & _ & _).
  rewrite len_ToLower in *.
  destruct (idxExtraOf querySql <? len querySql) eqn:Hlt.
  - by rewrite !str_app_assoc.
  - apply Z.ltb_ge in Hlt. unfold slice_from.
    replace (String.length querySql - Z.to_nat (idxExtraOf querySql))%nat with 0%nat
      by (unfold len in *; lia).
    by rewrite substring_0_length, str_app_nil_r, !str_app_assoc.
Qed.

(** * Keyword occurrences in a string with a clause spliced in *)

Section occurrences.
Local Open Scope nat_scope.

Lemma occurs_at_app_l kw a b j : occurs_at kw a j → occurs_at kw (a +:+ b) j.
Proof.
  rewrite !occurs_at_get. intros H t Ht. rewrite get_app, <- (H t Ht).
  destruct (get_lt kw t Ht) as [c Hc]. rewrite <- (H t Ht) in Hc.
  apply get_Some_lt in Hc. by rewrite decide_True.
Qed.

Lemma occurs_at_app_r kw a b j :
  String.length a ≤ j →
  occurs_at kw (a +:+ b) j ↔ occurs_at kw b (j - String.length a).
Proof.
  intros Hj. rewrite !occurs_at_get.
  split; intros H t Ht; specialize (H t Ht); rewrite get_app, decide_False in * by lia;
    rewrite <- H; f_equal; lia.
Qed.

Lemma occurs_at_app_inv kw a b j :
  occurs_at kw (a +:+ b) j →
  ¬ (j < String.length a < j + String.length kw) →
  occurs_at kw a j ∨ (String.length a ≤ j ∧ occurs_at kw b (j - String.length a)).
Proof.
  intros H Hns. destruct (decide (String.length a ≤ j)) as [Hle|Hgt].
  - right. split; [done|]. by apply occurs_at_app_r.
  - left. apply occurs_at_get. intros t Ht.
    rewrite <- (proj1 (occurs_at_get _ _ _) H t Ht), get_app.
    by rewrite decide_True by lia.
Qed.

(** Every keyword starts with a space followed by one of [g], [o], [l],
    [f]; its only other space is followed by [b] or [u]. *)
Lemma kw_head kw :
  kw ∈ keywords →
  String.get 0 kw = Some " "%char ∧
  ∃ c, String.get 1 kw = Some c ∧ c ∈ ["g"; "o"; "l"; "f"]%char.
Proof.
  unfold keywords. rewrite !elem_of_cons, elem_of_nil.
  intros [->|[->|[->|[->|[]]]]]; (split; [done|]); eexists; (split; [done|]);
    rewrite !elem_of_cons; auto.
Qed.

Lemma kw_inner_space kw t :
  kw ∈ keywords → 1 ≤ t →
  String.get t kw = Some " "%char →
  String.get (S t) kw = Some "b"%char ∨ String.get (S t) kw = Some "u"%char.
Proof.
  unfold keywords. rewrite !elem_of_cons, elem_of_nil.
  intros [->|[->|[->|[->|[]]]]] Ht H;
    do 12 (destruct t as [|t]; [simpl in *; first [lia|done|auto]|]);
    simpl in H; done.
Qed.

(** No keyword occurrence runs across a space that is followed by a
    byte other than [b] and [u]. *)
Lemma no_straddle kw s p j c :
  kw ∈ keywords →
  String.get p s = Some " "%char → String.get (S p) s = Some c →
  c ≠ "b"%char → c ≠ "u"%char →
  occurs_at kw s j → ¬ (j < p < j + String.length kw).
Proof.
  intros Hkw Hp Hc Hb Hu Hocc [Hj Hlt].
  pose proof (proj1 (occurs_at_get _ _ _) Hocc) as Hget.
  pose proof (Hget (p - j) ltac:(lia)) as H1.
  replace (j + (p - j)) with p in H1 by lia. rewrite Hp in H1.
  destruct (kw_inner_space kw (p - j) Hkw ltac:(lia) (eq_sym H1)) as [H2|H2];
    pose proof (get_Some_lt _ _ _ H2) as Hlt2;
    pose proof (Hget (S (p - j)) Hlt2) as H3;
    replace (j + S (p - j)) with (S p) in H3 by lia;
    congruence.
Qed.

Lemma at_keyword_no_straddle kw a b j :
  kw ∈ keywords → at_keyword b →
  occurs_at kw (a +:+ b) j → ¬ (j < String.length a < j + String.length kw).
Proof.
  intros Hkw [->|(k & Hk & Hocc)] H.
  - apply occurs_at_bound in H; [|by apply keywords_nonempty].
    rewrite str_length_app in H. simpl in H. lia.
  - destruct (kw_head k Hk) as (H0 & c & H1 & Hc).
    pose proof (keywords_nonempty k Hk) as Hne.
    pose proof (occurs_at_bound _ _ _ Hne Hocc) as Hb.
    pose proof (get_Some_lt _ _ _ H1) as Hk2.
    pose proof (proj1 (occurs_at_get _ _ _) Hocc) as Hget.
    eapply (no_straddle kw _ (String.length a) j c); [done| | | | |done].
    + rewrite get_app, decide_False, Nat.sub_diag by lia.
      rewrite <- H0. apply (Hget 0). lia.
    + rewrite get_app, decide_False by lia.
      replace (S (String.length a) - String.length a) with 1 by lia.
      rewrite <- H1. apply (Hget 1). lia.
    + intros ->. rewrite !elem_of_cons, elem_of_nil in Hc.
      by destruct Hc as [?|[?|[?|[?|[]]]]].
    + intros ->. rewrite !elem_of_cons, elem_of_nil in Hc.
      by destruct Hc as [?|[?|[?|[?|[]]]]].
Qed.

(** Where keywords occur in [a ++ b] when [b] starts with a keyword. *)
Lemma occurs_at_app_keyword kw a b j :
  kw ∈ keywords → at_keyword b →
  occurs_at kw (a +:+ b) j ↔
  occurs_at kw a j ∨ (String.length a ≤ j ∧ occurs_at kw b (j - String.length a)).
Proof.
  intros Hkw Hb. split.
  - intros H. apply occurs_at_app_inv; [done|]. by eapply at_keyword_no_straddle.
  - intros [H|[Hj H]]; [by apply occurs_at_app_l|by apply occurs_at_app_r].
Qed.

End occurrences.

Section splice.
Local Open Scope nat_scope.
Variables a m b : string.
Hypothesis Hb : at_keyword b.
Hypothesis Hm_free : ∀ kw j, kw ∈ keywords → ¬ occurs_at kw m j.
Hypothesis Hm_head :
  String.get 0 m = Some " "%char ∧
  ∃ c, String.get 1 m = Some c ∧ c ≠ "b"%char ∧ c ≠ "u"%char.

Lemma occurs_at_splice kw j :
  kw ∈ keywords →
  occurs_at kw (a +:+ m +:+ b) j ↔
  occurs_at kw a j ∨
  (String.length a + String.length m ≤ j ∧
   occurs_at kw b (j - String.length a - String.length m)).
Proof.
  intros Hkw. destruct Hm_head as (H0 & c & H1 & Hcb & Hcu).
  pose proof (get_Some_lt _ _ _ H1) as Hlen. split.
  - intros H. apply occurs_at_app_inv in H as [H|[Hj H]]; [by left| |].
    + apply occurs_at_app_keyword in H as [H|[Hj' H]]; [|right|done..].
      * by destruct (Hm_free kw (j - String.length a)).
      * split; [lia|done].
    + eapply (no_straddle kw _ _ _ c); [done| | |done..].
      * rewrite get_app, decide_False, Nat.sub_diag by lia.
        by rewrite get_app, decide_True by lia.
      * rewrite get_app, decide_False by lia.
        replace (S (String.length a) - String.length a) with 1 by lia.
        by rewrite get_app, decide_True by lia.
  - intros [H|[Hj H]]; [by apply occurs_at_app_l|].
    apply occurs_at_app_r; [lia|]. by apply occurs_at_app_r; [lia|].
Qed.

(** The leftmost occurrence of a keyword stays where it is when it is
    before the splice point, and moves by the length of [m] otherwise. *)
Lemma Index_splice kw :
  kw ∈ keywords →
  Index (a +:+ m +:+ b) kw =
  (if Index (a +:+ b) kw <? Z.of_nat (String.length a)
   then Index (a +:+ b) kw
   else Index (a +:+ b) kw + Z.of_nat (String.length m))%Z.
Proof.
  intros Hkw. pose proof (keywords_nonempty kw Hkw) as Hne.
  destruct (Index_cases (a +:+ b) kw Hne) as [[E Hno]|(i & E & Hi & Hli)]; rewrite E.
  - replace (-1 <? Z.of_nat (String.length a))%Z with true by (symmetry; apply Z.ltb_lt; lia).
    apply Index_absent; [done|]. intros j [H|[Hj H]]%occurs_at_splice; [| |done].
    + destruct (Hno j). by apply occurs_at_app_l.
    + destruct (Hno (j - String.length m)). apply occurs_at_app_r; [lia|].
      by replace (j - String.length m - String.length a)
        with (j - String.length a - String.length m) by lia.
  - apply occurs_at_app_keyword in Hi; [|done..].
    destruct (Z.ltb_spec (Z.of_nat i) (Z.of_nat (String.length a))) as [Hlt|Hge].
    + apply Index_leftmost; [done|]. destruct Hi as [Hi|[Hj _]]; [|lia]. split.
      * by apply occurs_at_splice; [|left].
      * intros j Hj [H|[Hj' H]]%occurs_at_splice; [|lia|done].
        destruct (Hli j Hj). by apply occurs_at_app_l.
    + rewrite <- Nat2Z.inj_add. apply Index_leftmost; [done|].
      destruct Hi as [Hi|[_ Hi]].
      { apply occurs_at_bound in Hi; [|done]. destruct kw; [done|]. simpl in Hi. lia. }
      split.
      * apply occurs_at_splice; [done|]. right. split; [lia|].
        by replace (i + String.length m - String.length a - String.length m)
          with (i - String.length a) by lia.
      * intros j Hj [H|[Hj' H]]%occurs_at_splice; [| |done].
        -- pose proof (occurs_at_bound _ _ _ Hne H).
           destruct (Hli j); [|by apply occurs_at_app_l].
           destruct kw; [done|]. simpl in *. lia.
        -- destruct (Hli (j - String.length m)); [lia|].
           apply occurs_at_app_r; [lia|].
           by replace (j - String.length m - String.length a)
             with (j - String.length a - String.length m) by lia.
Qed.

End splice.

(** * Inserting a second clause *)

Section twice.
Local Open Scope nat_scope.

Lemma clause_free_spec clause kw j :
  clause_free clause = true → kw ∈ keywords →
  ¬ occurs_at kw (" " +:+ ToLower clause) j.
Proof.
  unfold clause_free. rewrite forallb_forall. intros Hfree Hkw Hocc.
  specialize (Hfree kw (proj1 (list_elem_of_In _ _) Hkw)).
  apply negb_true_iff in Hfree.
  assert (Contains (" " +:+ ToLower clause) kw = true) as Hc; [|congruence].
  apply Contains_occurs; [by apply keywords_nonempty|eauto].
Qed.

Lemma inserted_free pfx clause kw j :
  pfx = " where " ∨ pfx = " and " →
  clause_free clause = true → kw ∈ keywords →
  ¬ occurs_at kw (inserted pfx clause) j.
Proof.
  intros Hpfx Hfree Hkw Hocc.
  destruct (kw_head kw Hkw) as (H0 & c & H1 & Hc).
  pose proof (get_Some_lt _ _ _ H1) as Hlen.
  pose proof (proj1 (occurs_at_get _ _ _) Hocc) as Hget.
  pose proof (Hget 0 ltac:(lia)) as G0. pose proof (Hget 1 ltac:(lia)) as G1.
  rewrite H0 in G0. rewrite H1 in G1. rewrite Nat.add_0_r in G0.
  rewrite !elem_of_cons, elem_of_nil in Hc.
  unfold inserted in *.
  destruct Hpfx as [-> | ->].
  - change (" where " +:+ ToLower clause)
      with (" where" +:+ " " +:+ ToLower clause) in *.
    destruct (decide (6 ≤ j)) as [Hj|Hj].
    + apply (occurs_at_app_r kw " where") in Hocc; [|done].
      by eapply clause_free_spec.
    + rewrite get_app, decide_True in G0 by (simpl; lia).
      destruct j as [|j].
      * rewrite get_app, decide_True in G1 by (simpl; lia).
        simpl in G1. simplify_eq. by destruct Hc as [?|[?|[?|[?|[]]]]].
      * do 5 (destruct j as [|j]; [by simpl in G0|]). lia.
  - change (" and " +:+ ToLower clause)
      with (" and" +:+ " " +:+ ToLower clause) in *.
    destruct (decide (4 ≤ j)) as [Hj|Hj].
    + apply (occurs_at_app_r kw " and") in Hocc; [|done].
      by eapply clause_free_spec.
    + rewrite get_app, decide_True in G0 by (simpl; lia).
      destruct j as [|j].
      * rewrite get_app, decide_True in G1 by (simpl; lia).
        simpl in G1. simplify_eq. by destruct Hc as [?|[?|[?|[?|[]]]]].
      * do 3 (destruct j as [|j]; [by simpl in G0|]). lia.
Qed.

Lemma inserted_head pfx clause :
  pfx = " where " ∨ pfx = " and " →
  String.get 0 (inserted pfx clause) = Some " "%char ∧
  ∃ c, String.get 1 (inserted pfx clause) = Some c ∧ c ≠ "b"%char ∧ c ≠ "u"%char.
Proof.
  intros [-> | ->]; (split; [done|]); eexists; (split; [reflexivity|done]).
Qed.

End twice.

Section second_insert.
Local Open Scope Z_scope.

Lemma where_prefix_cases q : where_prefix q = " where " ∨ where_prefix q = " and ".
Proof. unfold where_prefix. destruct (Contains _ _); auto. Qed.

Lemma ToLower_where_prefix q : ToLower (where_prefix q) = where_prefix q.
Proof. unfold where_prefix. by destruct (Contains _ _). Qed.

Lemma idxExtraOf_range q : 0 ≤ idxExtraOf q ≤ len q.
Proof.
  destruct (idxExtraOf_splice_index q) as (Hr & _). by rewrite len_ToLower in Hr.
Qed.

Lemma slice_split s i : 0 ≤ i ≤ len s → slice_to s i +:+ slice_from s i = s.
Proof. intros Hi. apply substring_split. unfold len in Hi. lia. Qed.

Lemma length_slice_to s i :
  0 ≤ i ≤ len s → String.length (slice_to s i) = Z.to_nat i.
Proof. intros Hi. apply length_substring_0. unfold len in Hi. lia. Qed.

Lemma ToLower_slice_to s i : ToLower (slice_to s i) = slice_to (ToLower s) i.
Proof. apply ToLower_substring. Qed.

Lemma ToLower_slice_from s i : ToLower (slice_from s i) = slice_from (ToLower s) i.
Proof. unfold slice_from. by rewrite ToLower_substring, length_ToLower. Qed.

Lemma slice_to_app x y : slice_to (x +:+ y) (len x) = x.
Proof.
  unfold slice_to, len. rewrite Nat2Z.id. apply String.get_correct. intros p.
  rewrite get_substring, get_app. simpl. case_decide; [done|].
  symmetry. apply get_ge. lia.
Qed.

Lemma slice_from_app x y : slice_from (x +:+ y) (len x) = y.
Proof.
  unfold slice_from, len. rewrite Nat2Z.id, str_length_app.
  apply String.get_correct. intros p.
  rewrite get_substring, get_app.
  replace (String.length x + String.length y - String.length x)%nat
    with (String.length y) by lia.
  replace (String.length x + p - String.length x)%nat with p by lia.
  rewrite (decide_False (P := (_ + _ < _)%nat)) by lia.
  case_decide; [done|]. symmetry. apply get_ge. lia.
Qed.

(** The rest of the statement after the splice point is empty or
    starts with a keyword. *)
Lemma at_keyword_rest q :
  at_keyword (slice_from (ToLower q) (idxExtraOf q)).
Proof.
  destruct (idxExtraOf_splice_index q) as (Hr & [E|(kw & Hkw & Hpos & Hocc & _)] & _).
  - left. unfold slice_from. rewrite E. unfold len. rewrite Nat2Z.id, Nat.sub_diag.
    apply substring_0_length.
  - right. exists kw. split; [done|].
    rewrite <- (slice_split (ToLower q) (idxExtraOf q)) in Hocc by done.
    apply occurs_at_app_r in Hocc; rewrite length_slice_to in * by done; [|done].
    by rewrite Nat.sub_diag in Hocc.
Qed.

Lemma ToLower_insertSqlClause q c :
  ToLower (insertSqlClause q c) =
  slice_to (ToLower q) (idxExtraOf q)
    +:+ inserted (where_prefix q) c
    +:+ slice_from (ToLower q) (idxExtraOf q).
Proof.
  rewrite insertSqlClause_unfold. fold (where_prefix q). unfold inserted.
  by rewrite !ToLower_app, ToLower_slice_to, ToLower_slice_from,
    ToLower_where_prefix, !str_app_assoc.
Qed.

Lemma Index_insertSqlClause q c kw :
  clause_free c = true → kw ∈ keywords →
  Index (ToLower (insertSqlClause q c)) kw =
  if Index (ToLower q) kw <? idxExtraOf q then Index (ToLower q) kw
  else Index (ToLower q) kw + len (inserted (where_prefix q) c).
Proof.
  intros Hfree Hkw. rewrite ToLower_insertSqlClause.
  pose proof (idxExtraOf_range q) as Hr. rewrite <- len_ToLower in Hr.
  rewrite Index_splice; [|apply at_keyword_rest| |by apply inserted_head, where_prefix_cases|done].
  - rewrite slice_split, length_slice_to by done.
    by rewrite Z2Nat.id by lia.
  - intros k j Hk. by apply inserted_free; [apply where_prefix_cases|..].
Qed.

Lemma clauseIdx_shift s s' kw n M cur :
  Index s' kw = (if Index s kw <? n then Index s kw else Index s kw + M) →
  (Index s kw ≤ 0 ∨ n ≤ Index s kw) → (Index s kw = 0 → 0 < n) → 0 ≤ n → 0 ≤ M →
  clauseIdx s' kw (cur + M) = clauseIdx s kw cur + M.
Proof.
  intros E H1 H2 Hn HM. unfold clauseIdx. rewrite E.
  pose proof (Index_range s kw).
  repeat match goal with |- context [?x <? ?y] => destruct (Z.ltb_spec x y) end;
    simpl; lia.
Qed.

Lemma idxExtraOf_insertSqlClause q c :
  clause_free c = true →
  idxExtraOf (insertSqlClause q c) = idxExtraOf q + len (inserted (where_prefix q) c).
Proof.
  intros Hfree.
  destruct (idxExtraOf_splice_index q) as (Hr & Hat & Hmin).
  assert (∀ kw, kw ∈ keywords →
    (Index (ToLower q) kw ≤ 0 ∨ idxExtraOf q ≤ Index (ToLower q) kw) ∧
    (Index (ToLower q) kw = 0 → 0 < idxExtraOf q)) as Hkw.
  { intros kw Hkw. pose proof (keywords_nonempty kw Hkw) as Hne.
    destruct (Index_cases (ToLower q) kw Hne) as [[E _]|(i & E & Hl)]; rewrite E.
    - split; lia.
    - split.
      + destruct i as [|i]; [left; lia|right]. apply (Hmin kw); [done..|lia].
      + intros ?. assert (i = 0%nat) as -> by lia.
        destruct Hl as [Hocc _]. apply occurs_at_bound in Hocc; [|done].
        destruct kw; [done|]. simpl in Hocc.
        destruct Hat as [E'|(? & ? & ? & ?)]; [|done]. unfold len in *. lia. }
  unfold idxExtraOf at 1.
  assert (len (ToLower (insertSqlClause q c))
          = len (ToLower q) + len (inserted (where_prefix q) c)) as ->.
  { rewrite ToLower_insertSqlClause. unfold len. rewrite !str_length_app.
    rewrite <- !(str_length_app _ (slice_from _ _)).
    pose proof (slice_split (ToLower q) (idxExtraOf q) Hr) as Hs.
    apply (f_equal String.length) in Hs. rewrite str_length_app in Hs.
    rewrite !str_length_app. lia. }
  assert (0 ≤ len (inserted (where_prefix q) c)) as HM by (unfold len; lia).
  unfold idxExtraOf.
  rewrite !(clauseIdx_shift (ToLower q) _ _ (idxExtraOf q));
    try done; try lia; try (apply Hkw; kw_mem);
    try (apply Index_insertSqlClause; [done|kw_mem]).
Qed.

End second_insert.

Section second_prefix.
Local Open Scope nat_scope.

(** After one insertion the statement contains [where]. *)
Lemma Contains_where_insertSqlClause q c :
  Contains (ToLower (insertSqlClause q c)) "where" = true.
Proof.
  rewrite ToLower_insertSqlClause. apply Contains_occurs; [done|].
  pose proof (idxExtraOf_range q) as Hr. rewrite <- len_ToLower in Hr.
  pose proof (at_keyword_rest q) as Hrest.
  set (a := slice_to (ToLower q) (idxExtraOf q)) in *.
  set (b := slice_from (ToLower q) (idxExtraOf q)) in *.
  unfold where_prefix. destruct (Contains (ToLower q) "where") eqn:E.
  - apply Contains_occurs in E as [j Hj]; [|done].
    rewrite <- (slice_split (ToLower q) (idxExtraOf q)) in Hj by done.
    fold a b in Hj. apply occurs_at_app_inv in Hj as [Hj|[Hle Hj]].
    + exists j. by apply occurs_at_app_l.
    + exists (j + String.length (inserted " and " c)).
      apply occurs_at_app_r; [lia|]. apply occurs_at_app_r; [lia|].
      by replace (j + String.length (inserted " and " c) - String.length a
                  - String.length (inserted " and " c)) with (j - String.length a) by lia.
    + intros [Hlt Hgt]. simpl in Hgt.
      assert ("where" ≠ "") as Hw by done.
      pose proof (occurs_at_bound _ _ _ Hw Hj) as Hbound.
      rewrite str_length_app in Hbound. simpl in Hbound.
      pose proof (proj1 (occurs_at_get _ _ _) Hj (String.length a - j) ltac:(simpl; lia)) as G.
      replace (j + (String.length a - j)) with (String.length a) in G by lia.
      rewrite get_app, decide_False, Nat.sub_diag in G by lia.
      destruct Hrest as [Hb|(kw & Hkw & Hocc)].
      * rewrite Hb in Hbound. simpl in Hbound. lia.
      * destruct (kw_head kw Hkw) as (H0 & _).
        pose proof (proj1 (occurs_at_get _ _ _) Hocc 0) as G0.
        rewrite H0 in G0. simpl in G0. rewrite G0 in G.
        -- destruct (String.length a - j) as [|[|[|[|[|t]]]]] eqn:Et; simpl in G; try done; lia.
        -- apply keywords_nonempty in Hkw. destruct kw; [done|simpl; lia].
  - exists (String.length a + 1).
    apply occurs_at_app_r; [lia|].
    replace (String.length a + 1 - String.length a) with 1 by lia.
    apply occurs_at_app_l. unfold inserted. by apply occurs_at_app_l.
Qed.

End second_prefix.

Lemma insertSqlClause_insertSqlClause q c1 c2 :
  clause_free c1 = true →
  insertSqlClause (insertSqlClause q c1) c2 =
  slice_to q (idxExtraOf q) +:+ where_prefix q +:+ c1 +:+ " and " +:+ c2
    +:+ slice_from q (idxExtraOf q).
Proof.
  intros Hfree. rewrite (insertSqlClause_unfold (insertSqlClause q c1)).
  rewrite Contains_where_insertSqlClause, idxExtraOf_insertSqlClause by done.
  rewrite (insertSqlClause_unfold q c1). fold (where_prefix q).
  pose proof (idxExtraOf_range q) as Hr.
  assert (idxExtraOf q + len (inserted (where_prefix q) c1)
          = len (slice_to q (idxExtraOf q) +:+ where_prefix q +:+ c1)) as ->.
  { unfold len, inserted. rewrite !str_length_app, length_ToLower, length_slice_to by done. lia. }
  set (x := slice_to q (idxExtraOf q) +:+ where_prefix q +:+ c1).
  replace (slice_to q (idxExtraOf q) +:+ where_prefix q +:+ c1 +:+ slice_from q (idxExtraOf q))
    with (x +:+ slice_from q (idxExtraOf q)) by (unfold x; by rewrite !str_app_assoc).
  rewrite slice_to_app, slice_from_app. unfold x. by rewrite !str_app_assoc.
Qed.

(** * The update function of [AddShardReplicationRecord] *)

Section replication_facts.
Context {TabletAlias : Type} `{EqDecision TabletAlias}.
Variable IsZero : TabletAlias → bool.
Variables tabletAlias parent : TabletAlias.

Local Abbreviation link_t := (ReplicationLink TabletAlias).
Local Abbreviation new_link := ({| TabletAlias_ := tabletAlias; Parent := parent |}).

Lemma links_of_snoc (links : list link_t) link :
  links_of tabletAlias (links ++ [link]) =
  links_of tabletAlias links ++
    (if decide (TabletAlias_ link = tabletAlias) then [link] else []).
Proof.
  unfold links_of. by rewrite filter_app.
Qed.

Lemma links_of_others_snoc (links : list link_t) link :
  links_of_others tabletAlias (links ++ [link]) =
  links_of_others tabletAlias links ++
    (if decide (TabletAlias_ link = tabletAlias) then [] else [link]).
Proof.
  unfold links_of_others. rewrite filter_app. f_equal.
  rewrite filter_cons, filter_nil. by repeat case_decide.
Qed.

Lemma links_of_cons (links : list link_t) link :
  links_of tabletAlias (link :: links) =
  if decide (TabletAlias_ link = tabletAlias) then link :: links_of tabletAlias links
  else links_of tabletAlias links.
Proof. unfold links_of. by rewrite filter_cons. Qed.

Lemma links_of_others_cons (links : list link_t) link :
  links_of_others tabletAlias (link :: links) =
  if decide (TabletAlias_ link = tabletAlias) then links_of_others tabletAlias links
  else link :: links_of_others tabletAlias links.
Proof. unfold links_of_others. rewrite filter_cons. by repeat case_decide. Qed.

(** What the loop has done when it ends. *)
Lemma AddShardReplicationRecord_range_spec (rest links : list link_t) found :
  let '(links', found') :=
    AddShardReplicationRecord_range IsZero tabletAlias parent rest links found in
  links_of_others tabletAlias links' =
    links_of_others tabletAlias links ++ links_of_others tabletAlias rest ∧
  links_of tabletAlias links' =
    links_of tabletAlias links ++
      (if found || IsZero parent then []
       else match links_of tabletAlias rest with [] => [] | _ :: _ => [new_link] end) ∧
  found' = found || bool_decide (links_of tabletAlias rest ≠ []).
Proof.
  revert links found. induction rest as [|link rest IH]; intros links found; simpl.
  - rewrite !app_nil_r, orb_false_r.
    destruct (found || IsZero parent); by rewrite app_nil_r.
  - rewrite links_of_cons, links_of_others_cons.
    destruct (decide (TabletAlias_ link = tabletAlias)) as [Heq|Hne].
    + destruct found; simpl.
      * specialize (IH links true).
        destruct (AddShardReplicationRecord_range _ _ _ rest links true).
        destruct IH as (IH1 & IH2 & IH3). by rewrite IH1, IH2, IH3.
      * destruct (IsZero parent) eqn:Hz.
        -- specialize (IH links true).
           destruct (AddShardReplicationRecord_range _ _ _ rest links true).
           destruct IH as (IH1 & IH2 & IH3). by rewrite IH1, IH2, IH3.
        -- specialize (IH (links ++ [{| TabletAlias_ := TabletAlias_ link; Parent := parent |}]) true).
           destruct (AddShardReplicationRecord_range _ _ _ rest _ true).
           destruct IH as (IH1 & IH2 & IH3). rewrite IH1, IH2, IH3.
           rewrite links_of_snoc, links_of_others_snoc. simpl.
           rewrite !decide_True by done. rewrite Heq.
           by rewrite !app_nil_r.
    + specialize (IH (links ++ [link]) found).
      destruct (AddShardReplicationRecord_range _ _ _ rest _ found).
      destruct IH as (IH1 & IH2 & IH3). rewrite IH1, IH2, IH3.
      rewrite links_of_snoc, links_of_others_snoc, !decide_False by done.
      by rewrite app_nil_r, <- app_assoc.
Qed.

(** ** C10: after the update function of [AddShardReplicationRecord]
    has run, the links of the other tablets are the ones there were, in
    the same order, and the links of the given tablet are a single link
    to the given parent when the parent is not zero, duplicates
    included or not before, and none when the parent is zero. *)
Theorem AddShardReplicationRecord_f_links (sr : ShardReplication TabletAlias) :
  let links := ReplicationLinks (AddShardReplicationRecord_f IsZero tabletAlias parent sr) in
  links_of_others tabletAlias links = links_of_others tabletAlias (ReplicationLinks sr) ∧
  links_of tabletAlias links = (if IsZero parent then [] else [new_link]).
Proof.
  unfold AddShardReplicationRecord_f.
  pose proof (AddShardReplicationRecord_range_spec (ReplicationLinks sr) [] false) as Hspec.
  destruct (AddShardReplicationRecord_range _ _ _ _ [] false) as [links found].
  destruct Hspec as (Ho & Hl & Hf). simpl in *.
  destruct (IsZero parent) eqn:Hz; simpl.
  - rewrite andb_false_r. by rewrite Ho, Hl.
  - rewrite andb_true_r. subst found.
    destruct (links_of tabletAlias (ReplicationLinks sr)) as [|l ls] eqn:Hls.
    + rewrite bool_decide_false by (intros ?; done). simpl.
      rewrite links_of_snoc, links_of_others_snoc. simpl.
      rewrite !decide_True by done. by rewrite Ho, Hl, app_nil_r.
    + rewrite bool_decide_true by done. simpl. by rewrite Ho, Hl.
Qed.

End replication_facts.

(** * [StrsEquals] *)

Section StrsEquals_facts.

Lemma sort_Strings_Sorted a : Sorted String.le (sort_Strings a).
Proof. apply Sorted_merge_sort, _. Qed.

Lemma sort_Strings_Permutation a : sort_Strings a ≡ₚ a.
Proof. apply merge_sort_Permutation. Qed.

Lemma sort_Strings_length a : length (sort_Strings a) = length a.
Proof. by rewrite sort_Strings_Permutation. Qed.

(** Sorting forgets the order and nothing else. *)
Lemma sort_Strings_eq a b : sort_Strings a = sort_Strings b ↔ a ≡ₚ b.
Proof.
  split.
  - intros H. by rewrite <- (sort_Strings_Permutation a), H, sort_Strings_Permutation.
  - intros H. apply (Sorted_unique String.le); [apply sort_Strings_Sorted..|].
    by rewrite !sort_Strings_Permutation.
Qed.

(** The comparison loop, entered at index [length pre]. *)
Lemma StrsEquals_range_spec pre a_rest b_rest :
  length a_rest = length b_rest →
  StrsEquals_range (length pre) a_rest (pre ++ b_rest) = bool_decide (a_rest = b_rest).
Proof.
  revert pre b_rest. induction a_rest as [|v a_rest IH]; intros pre [|w b_rest] Hlen;
    simplify_eq/=.
  - done.
  - rewrite lookup_app_r, Nat.sub_diag by done. simpl.
    destruct (decide (v ≠ w)) as [Hne|Heq].
    + rewrite bool_decide_false; [done|]. by intros [= ? ?].
    + apply dec_stable in Heq as ->.
      specialize (IH (pre ++ [w]) b_rest Hlen).
      rewrite length_app, <- app_assoc in IH. simpl in IH.
      rewrite Nat.add_1_r in IH. rewrite IH.
      apply bool_decide_ext. split; [by intros ->|by intros [= ->]].
Qed.

Lemma StrsEquals_result a b :
  (StrsEquals a b).1.1 = bool_decide (a ≡ₚ b).
Proof.
  unfold StrsEquals. destruct (decide (length a ≠ length b)) as [Hne|Heq]; simpl.
  - rewrite bool_decide_false; [done|]. intros Hp. by rewrite Hp in Hne.
  - apply dec_stable in Heq.
    pose proof (StrsEquals_range_spec [] (sort_Strings a) (sort_Strings b)) as Hr.
    simpl in Hr. rewrite Hr by (by rewrite !sort_Strings_length).
    apply bool_decide_ext, sort_Strings_eq.
Qed.

Lemma StrsEquals_slices a b :
  (StrsEquals a b).1.2 = (if decide (length a = length b) then sort_Strings a else a) ∧
  (StrsEquals a b).2 = (if decide (length a = length b) then sort_Strings b else b).
Proof. unfold StrsEquals. by repeat case_decide. Qed.

(** ** C6: [StrsEquals(A, B)] returns true exactly when [A] and [B]
    hold the same strings with the same multiplicities, in any order. *)
Theorem StrsEquals_iff_same_multiset (a b : list string) :
  (StrsEquals a b).1.1 = true ↔ a ≡ₚ b.
Proof. by rewrite StrsEquals_result, bool_decide_eq_true. Qed.

End StrsEquals_facts.

(** * [buildEntityIds] *)

Section buildEntityIds_facts.
Variables (qSql entityColName : string) (qBindVars : gmap string BindValue).

Local Abbreviation name_of i := (entityColName +:+ pretty i).

(** The copy of the bind variables of the query. *)
Lemma copy_bindVars :
  map_fold (λ k v (bindVar : gmap string BindValue), <[k := v]> bindVar) ∅ qBindVars
  = qBindVars.
Proof.
  rewrite map_fold_foldr. rewrite <- (list_to_map_to_list qBindVars) at 2.
  induction (map_to_list qBindVars) as [|[k v] l IH]; [done|].
  simpl. by rewrite IH.
Qed.




Lemma buildEntityIds_kids_text_more i kids bindVar b :
  (0 < i)%nat →
  (buildEntityIds_kids entityColName i kids bindVar b).2
  = b +:+ more_names entityColName i (length kids).
Proof.
  revert i bindVar b. induction kids as [|kid kids IH]; intros i bindVar b Hi; simpl.
  - by rewrite str_app_nil_r.
  - rewrite IH by lia. rewrite decide_True by done. by rewrite !str_app_assoc.
Qed.

Lemma join_names i n :
  join ", " ((λ name, ":" +:+ name) <$> ((λ i, name_of i) <$> seq i (S n)))
  = ":" +:+ name_of i +:+ more_names entityColName (S i) n.
Proof.
  revert i. induction n as [|n IH]; intros i.
  - simpl. by rewrite !str_app_nil_r.
  - specialize (IH (S i)). simpl in *. rewrite IH. by rewrite !str_app_assoc.
Qed.

Lemma buildEntityIds_kids_text kids bindVar :
  (buildEntityIds_kids entityColName 0 kids bindVar (entityColName +:+ " in (")).2 +:+ ")"
  = in_clause entityColName (length kids).
Proof.
  unfold in_clause, entity_names. destruct kids as [|kid kids].
  - simpl. by rewrite !str_app_assoc.
  - change (length (kid :: kids)) with (S (length kids)).
    rewrite join_names. simpl. rewrite buildEntityIds_kids_text_more by lia.
    by rewrite !str_app_assoc.
Qed.

Local Abbreviation sql_of kids :=
  (insertSqlClause qSql (in_clause entityColName (length kids))).
Local Abbreviation bindVar_of kids :=
  ((buildEntityIds_kids entityColName 0 kids qBindVars (entityColName +:+ " in (")).1).

(** The loop over the shards, entry by entry. *)
Lemma buildEntityIds_fold (entries : list (string * list KeyspaceId)) :
  buildEntityIds entries qSql entityColName qBindVars =
  (entries.*1,
   (λ kids, sql_of kids) <$> (list_to_map (reverse entries) : gmap string (list KeyspaceId)),
   (λ kids, bindVar_of kids) <$> (list_to_map (reverse entries) : gmap string (list KeyspaceId))).
Proof.
  unfold buildEntityIds. induction entries as [|[shard kids] entries IH] using rev_ind.
  - simpl. by rewrite !fmap_empty.
  - rewrite foldl_snoc, IH. unfold buildEntityIds_shard. rewrite copy_bindVars.
    pose proof (buildEntityIds_kids_text kids qBindVars) as Htext.
    destruct (buildEntityIds_kids entityColName 0 kids qBindVars _) as [bindVar b] eqn:E.
    simpl in Htext. rewrite Htext.
    rewrite reverse_snoc, list_to_map_cons, !fmap_insert, fmap_app. by rewrite E.
Qed.



End buildEntityIds_facts.




(** * The retry loop of the Resolver *)

Section resolver_facts.
Context {W QueryResult QueryResultList BoundQuery TabletType Session
         EntityKeyspaceIdMap SendReply : Type}.
Variable env : Collaborators W QueryResult QueryResultList BoundQuery TabletType
                 Session EntityKeyspaceIdMap SendReply.

(** The keyspace and the shards a turn goes on with. *)
Lemma check_keyspace_Ok keyspace newKeyspace :
  check_keyspace keyspace (Ok newKeyspace)
  = (newKeyspace, bool_decide (newKeyspace ≠ keyspace)).
Proof.
  unfold check_keyspace. case_decide as Hne.
  - by rewrite bool_decide_true.
  - subst. by rewrite bool_decide_false by (intros ?; done).
Qed.

Lemma check_keyspace_Err keyspace err :
  check_keyspace keyspace (Err err) = (keyspace, false).
Proof. done. Qed.

Lemma check_keyspace_changed keyspace alias :
  (check_keyspace keyspace alias).2 = bool_decide ((check_keyspace keyspace alias).1 ≠ keyspace).
Proof.
  destruct alias as [newKeyspace|err].
  - by rewrite check_keyspace_Ok.
  - simpl. by rewrite bool_decide_false by (intros ?; done).
Qed.

Lemma check_shards_spec newShards shards resharding :
  check_shards newShards shards resharding =
  if decide (length newShards = length shards) then
    if decide (newShards ≡ₚ shards) then (sort_Strings shards, resharding)
    else (sort_Strings newShards, true)
  else (newShards, true).
Proof.
  unfold check_shards.
  pose proof (StrsEquals_result newShards shards) as Hr.
  pose proof (StrsEquals_slices newShards shards) as [Ha Hb].
  destruct (StrsEquals newShards shards) as [[equal a] b]. simpl in *. subst.
  destruct (decide (length newShards = length shards)) as [Hlen|Hlen].
  - destruct (decide (newShards ≡ₚ shards)) as [Hp|Hp].
    + by rewrite bool_decide_true.
    + by rewrite bool_decide_false.
  - rewrite bool_decide_false; [done|]. intros Hp. by rewrite Hp in Hlen.
Qed.

Lemma check_shards_Permutation newShards shards resharding :
  (check_shards newShards shards resharding).1 ≡ₚ newShards.
Proof.
  rewrite check_shards_spec. repeat case_decide; simpl; try done.
  - by rewrite sort_Strings_Permutation.
  - apply sort_Strings_Permutation.
Qed.

Lemma check_shards_resharding newShards shards resharding :
  (check_shards newShards shards resharding).2
  = resharding || negb (bool_decide (newShards ≡ₚ shards)).
Proof.
  rewrite check_shards_spec.
  destruct (decide (newShards ≡ₚ shards)) as [Hp|Hp].
  - rewrite bool_decide_true by done. case_decide as Hlen; simpl.
    + by rewrite orb_false_r.
    + by rewrite Hp in Hlen.
  - rewrite bool_decide_false by done. case_decide; simpl; by rewrite orb_true_r.
Qed.

Section turn.
Context {A : Type}.
Variable dispatch : string → list string → W → result A * W.
Variable tabletType : TabletType.
Variable mapToShards : string → W → result (list string) * W.

Lemma retry_turn_Ok keyspace shards st qr w1 :
  dispatch keyspace shards (world st) = (Ok qr, w1) →
  retry_turn env dispatch tabletType mapToShards keyspace shards st =
  (Return (Ok qr),
   {| world := w1; calls := calls st ++ [CallDispatch keyspace shards None] |}).
Proof. intros H. unfold retry_turn, bind, call. by rewrite H. Qed.

Lemma retry_turn_not_retry keyspace shards st err w1 :
  dispatch keyspace shards (world st) = (Err err, w1) →
  is_retry env err = false →
  retry_turn env dispatch tabletType mapToShards keyspace shards st =
  (Return (Err err),
   {| world := w1; calls := calls st ++ [CallDispatch keyspace shards (Some err)] |}).
Proof. intros H Hr. unfold retry_turn, bind, call. by rewrite H, Hr. Qed.

(** A turn in which the dispatch fails with a retryable error. *)
Lemma retry_turn_retry keyspace shards st err w1 alias w2 r w3 :
  dispatch keyspace shards (world st) = (Err err, w1) →
  is_retry env err = true →
  getKeyspaceAlias env keyspace tabletType w1 = (alias, w2) →
  mapToShards (check_keyspace keyspace alias).1 w2 = (r, w3) →
  retry_turn env dispatch tabletType mapToShards keyspace shards st =
  (match r with
   | Err err' => Return (Err err')
   | Ok newShards =>
       if (check_shards newShards shards (check_keyspace keyspace alias).2).2
       then Continue ((check_keyspace keyspace alias).1,
                      (check_shards newShards shards (check_keyspace keyspace alias).2).1)
       else Return (Err err)
   end,
   {| world := w3;
      calls := calls st ++
        [CallDispatch keyspace shards (Some err);
         CallGetKeyspaceAlias keyspace (err_of alias);
         CallMapToShards (check_keyspace keyspace alias).1 (err_of r)] |}).
Proof.
  intros Hd Hr Ha Hm. unfold retry_turn, bind, call. rewrite Hd, Hr. simpl.
  rewrite Ha. destruct (check_keyspace keyspace alias) as [keyspace' resharding].
  simpl in *. rewrite Hm. rewrite <- !app_assoc. simpl.
  destruct r as [newShards|err']; [|done].
  destruct (check_shards newShards shards resharding) as [shards' resharding'].
  simpl. by destruct resharding'.
Qed.

End turn.

(** ** C1: when a dispatch of [Execute] fails with a [ShardConnError]
    of code RETRY, [getKeyspaceAlias] answers the current keyspace and
    the shards resolved again are the current ones as a multiset, the
    loop returns that error; the calls it made after the dispatch are
    the alias lookup and the resolution, no other dispatch. *)
Theorem Execute_retry_without_resharding
    (fuel : nat) (sql : string) (bindVars : gmap string BindValue)
    (tabletType : TabletType) (session : Session)
    (mapToShards : string → W → result (list string) * W)
    (keyspace : string) (shards newShards : list string)
    (st : State W) (err : error) (w1 w2 w3 : W) :
  scatterConn_Execute env sql bindVars keyspace shards tabletType session (world st)
    = (Err err, w1) →
  is_retry env err = true →
  getKeyspaceAlias env keyspace tabletType w1 = (Ok keyspace, w2) →
  mapToShards keyspace w2 = (Ok newShards, w3) →
  newShards ≡ₚ shards →
  Execute_loop env (S fuel) sql bindVars tabletType session mapToShards keyspace shards st
  = (Some (Err err),
     {| world := w3;
        calls := calls st ++
          [CallDispatch keyspace shards (Some err);
           CallGetKeyspaceAlias keyspace None;
           CallMapToShards keyspace None] |}).
Proof.
  intros Hd Hr Ha Hm Hp. unfold Execute_loop. simpl. unfold bind at 1.
  rewrite (retry_turn_retry
    (λ keyspace shards,
       scatterConn_Execute env sql bindVars keyspace shards tabletType session)
    tabletType mapToShards keyspace shards st err w1 (Ok keyspace) w2 (Ok newShards) w3
    Hd Hr Ha) by (by rewrite check_keyspace_Ok).
  rewrite check_keyspace_Ok. simpl.
  rewrite check_shards_resharding.
  rewrite (bool_decide_true (newShards ≡ₚ shards)) by done.
  by rewrite (bool_decide_false (keyspace ≠ keyspace)) by (intros ?; done).
Qed.

(** ** C2: when the first dispatch of [Execute] fails with a
    [ShardConnError] of code RETRY and then [getKeyspaceAlias] answers
    another keyspace or the shards resolved again differ from the
    current ones as a multiset, the turn ends in [continue]: the next
    dispatch is made under the keyspace the loop now holds (the name
    [getKeyspaceAlias] answered when it answered one) and on the shards
    resolved again, up to their order; when that dispatch succeeds,
    [Execute] returns its result, after two dispatches. *)
Theorem Execute_retry_after_resharding
    (fuel : nat) (sql : string) (bindVars : gmap string BindValue)
    (keyspace : string) (tabletType : TabletType) (session : Session)
    (mapToShards : string → W → result (list string) * W)
    (shards newShards : list string) (alias : result string)
    (st : State W) (err : error) (w1 w2 w3 w4 : W) :
  mapToShards keyspace (world st) = (Ok shards, w1) →
  scatterConn_Execute env sql bindVars keyspace shards tabletType session w1
    = (Err err, w2) →
  is_retry env err = true →
  getKeyspaceAlias env keyspace tabletType w2 = (alias, w3) →
  mapToShards (check_keyspace keyspace alias).1 w3 = (Ok newShards, w4) →
  (∃ newKeyspace, alias = Ok newKeyspace ∧ newKeyspace ≠ keyspace) ∨ ¬ newShards ≡ₚ shards →
  ∃ keyspace' shards',
    (∀ newKeyspace, alias = Ok newKeyspace → keyspace' = newKeyspace) ∧
    (∀ err', alias = Err err' → keyspace' = keyspace) ∧
    shards' ≡ₚ newShards ∧
    Execute_turn env sql bindVars tabletType session mapToShards keyspace shards
      {| world := w1; calls := calls st ++ [CallMapToShards keyspace None] |}
    = (Continue (keyspace', shards'),
       {| world := w4;
          calls := calls st ++
            [CallMapToShards keyspace None;
             CallDispatch keyspace shards (Some err);
             CallGetKeyspaceAlias keyspace (err_of alias);
             CallMapToShards keyspace' None] |}) ∧
    ∀ qr w5,
      scatterConn_Execute env sql bindVars keyspace' shards' tabletType session w4
        = (Ok qr, w5) →
      Execute env (S (S fuel)) sql bindVars keyspace tabletType session mapToShards st
      = (Some (Ok qr),
         {| world := w5;
            calls := calls st ++
              [CallMapToShards keyspace None;
               CallDispatch keyspace shards (Some err);
               CallGetKeyspaceAlias keyspace (err_of alias);
               CallMapToShards keyspace' None;
               CallDispatch keyspace' shards' None] |}) ∧
      length (filter is_dispatch
        [CallMapToShards keyspace None;
         CallDispatch keyspace shards (Some err);
         CallGetKeyspaceAlias keyspace (err_of alias);
         CallMapToShards keyspace' None;
         CallDispatch keyspace' shards' None]) = 2%nat.
Proof.
  intros Hm Hd Hr Ha Hm' Hchange.
  exists (check_keyspace keyspace alias).1,
    (check_shards newShards shards (check_keyspace keyspace alias).2).1.
  assert ((check_shards newShards shards (check_keyspace keyspace alias).2).2 = true)
    as Hresharding.
  { rewrite check_shards_resharding, check_keyspace_changed.
    destruct Hchange as [(newKeyspace & -> & Hne)|Hnp].
    - rewrite check_keyspace_Ok. simpl. by rewrite bool_decide_true.
    - rewrite (bool_decide_false (_ ≡ₚ _)) by done. apply orb_true_r. }
  assert (Execute_turn env sql bindVars tabletType session mapToShards keyspace shards
      {| world := w1; calls := calls st ++ [CallMapToShards keyspace None] |}
    = (Continue ((check_keyspace keyspace alias).1,
                 (check_shards newShards shards (check_keyspace keyspace alias).2).1),
       {| world := w4;
          calls := calls st ++
            [CallMapToShards keyspace None;
             CallDispatch keyspace shards (Some err);
             CallGetKeyspaceAlias keyspace (err_of alias);
             CallMapToShards (check_keyspace keyspace alias).1 None] |})) as Hturn.
  { unfold Execute_turn.
    rewrite (retry_turn_retry
      (λ keyspace shards,
         scatterConn_Execute env sql bindVars keyspace shards tabletType session)
      tabletType mapToShards keyspace shards
      {| world := w1; calls := calls st ++ [CallMapToShards keyspace None] |}
      err w2 alias w3 (Ok newShards) w4 Hd Hr Ha Hm').
    simpl. by rewrite Hresharding, <- app_assoc. }
  split_and!.
  - intros newKeyspace ->. by rewrite check_keyspace_Ok.
  - by intros err' ->.
  - apply check_shards_Permutation.
  - done.
  - intros qr w5 Hd'. split; [|done].
    unfold Execute, resolve_and_retry. unfold bind at 1, call at 1. rewrite Hm.
    change (retry_loop env ?d ?t ?m (S (S fuel)) ?k ?s)
      with (bind (retry_turn env d t m k s)
             (λ t', match t' with
                    | Continue (keyspace, shards) => retry_loop env d t m (S fuel) keyspace shards
                    | Return r => ret (Some r)
                    end)).
    unfold bind at 1. unfold Execute_turn in Hturn. simpl err_of. rewrite Hturn.
    simpl. unfold bind at 1.
    erewrite retry_turn_Ok by exact Hd'. simpl. by rewrite <- app_assoc.
Qed.

(** ** C3 (amended): when the resolution of [StreamExecute] succeeds
    with more than one shard, the call returns the error
    "Resolved to more than one shard" and has made no call to
    ScatterConn; when it succeeds with one shard,
    [ScatterConn.StreamExecute] is called once, on that shard, and its
    result is returned: there is no loop. *)
Theorem StreamExecute_single_shard
    (sql : string) (bindVars : gmap string BindValue) (keyspace : string)
    (tabletType : TabletType) (session : Session)
    (mapToShards : string → W → result (list string) * W) (sendReply : SendReply)
    (st : State W) (shards : list string) (w1 : W) :
  mapToShards keyspace (world st) = (Ok shards, w1) →
  ((1 < length shards)%nat →
     StreamExecute env sql bindVars keyspace tabletType session mapToShards sendReply st
     = (Some (errorString "Resolved to more than one shard"),
        {| world := w1; calls := calls st ++ [CallMapToShards keyspace None] |})) ∧
  (∀ shard err w2,
     shards = [shard] →
     scatterConn_StreamExecute env sql bindVars keyspace [shard] tabletType session
       sendReply w1 = (err, w2) →
     StreamExecute env sql bindVars keyspace tabletType session mapToShards sendReply st
     = (err,
        {| world := w2;
           calls := calls st ++
             [CallMapToShards keyspace None; CallDispatch keyspace [shard] err] |})).
Proof.
  intros Hm. unfold StreamExecute, bind, call. rewrite Hm. simpl. split.
  - intros Hlen. rewrite decide_True by lia. done.
  - intros shard err w2 -> Hs. simpl. rewrite Hs. by rewrite <- app_assoc.
Qed.

(** ** C8 (amended): [StrsEquals] sorts its two slices in place when
    they have the same length, and leaves them as they are when they
    have not; so, after the comparison in the loop of [Execute], the
    shards of the next dispatch are sorted when the shards resolved
    again are as many as the current ones, and are the shards resolved
    again, in the order of the resolver, when they are not. *)
Theorem StrsEquals_sorts_in_place (a b : list string) :
  (length a = length b →
     (StrsEquals a b).1.2 = sort_Strings a ∧ (StrsEquals a b).2 = sort_Strings b ∧
     Sorted String.le (StrsEquals a b).1.2 ∧ (StrsEquals a b).1.2 ≡ₚ a ∧
     Sorted String.le (StrsEquals a b).2 ∧ (StrsEquals a b).2 ≡ₚ b) ∧
  (length a ≠ length b → (StrsEquals a b).1.2 = a ∧ (StrsEquals a b).2 = b) ∧
  ∀ (sql : string) (bindVars : gmap string BindValue) (tabletType : TabletType)
    (session : Session) (mapToShards : string → W → result (list string) * W)
    (keyspace : string) (st st' : State W) (err : error) (alias : result string)
    (w1 w2 w3 : W) (keyspace' : string) (shards' : list string),
    scatterConn_Execute env sql bindVars keyspace b tabletType session (world st)
      = (Err err, w1) →
    is_retry env err = true →
    getKeyspaceAlias env keyspace tabletType w1 = (alias, w2) →
    mapToShards (check_keyspace keyspace alias).1 w2 = (Ok a, w3) →
    Execute_turn env sql bindVars tabletType session mapToShards keyspace b st
      = (Continue (keyspace', shards'), st') →
    (length a = length b → Sorted String.le shards' ∧ shards' = sort_Strings a) ∧
    (length a ≠ length b → shards' = a).
Proof.
  pose proof (StrsEquals_slices a b) as [Ha Hb]. split_and!.
  - intros Hlen. rewrite decide_True in Ha, Hb by done. rewrite Ha, Hb.
    split_and!; auto using sort_Strings_Sorted, sort_Strings_Permutation.
  - intros Hlen. by rewrite decide_False in Ha, Hb by done.
  - intros sql bindVars tabletType session mapToShards keyspace st st' err alias
      w1 w2 w3 keyspace' shards' Hd Hr Hal Hm.
    unfold Execute_turn.
    rewrite (retry_turn_retry
      (λ keyspace shards,
         scatterConn_Execute env sql bindVars keyspace shards tabletType session)
      tabletType mapToShards keyspace b st err w1 alias w2 (Ok a) w3 Hd Hr Hal Hm).
    rewrite check_shards_spec.
    destruct (decide (length a = length b)) as [Hlen|Hlen].
    + destruct (decide (a ≡ₚ b)) as [Hp|Hp]; simpl.
      * destruct ((check_keyspace keyspace alias).2); [|done].
        intros [= <- <- <-]. split; [|done]. intros _. split.
        -- apply sort_Strings_Sorted.
        -- by apply sort_Strings_eq.
      * intros [= <- <- <-]. split; [|done]. intros _. split; [|done].
        apply sort_Strings_Sorted.
    + simpl. intros [= <- <- <-]. by split.
Qed.

(** Where the errors of the loops come from. *)
Section error_origin.
Context {A : Type}.
Variable dispatch : string → list string → W → result A * W.
Variable tabletType : TabletType.
Variable mapToShards : string → W → result (list string) * W.

Lemma retry_turn_calls keyspace shards st t st' :
  retry_turn env dispatch tabletType mapToShards keyspace shards st = (t, st') →
  ∃ new, calls st' = calls st ++ new ∧
    ∀ err, t = Return (Err err) → ∃ c, c ∈ new ∧ returned_by err c.
Proof.
  destruct (dispatch keyspace shards (world st)) as [[qr|err] w1] eqn:Hd.
  - rewrite (retry_turn_Ok _ _ _ _ _ _ _ _ Hd). intros [= <- <-]. simpl.
    eexists. split; [done|]. by intros err [=].
  - destruct (is_retry env err) eqn:Hr.
    + destruct (getKeyspaceAlias env keyspace tabletType w1) as [alias w2] eqn:Ha.
      destruct (mapToShards (check_keyspace keyspace alias).1 w2) as [r w3] eqn:Hm.
      rewrite (retry_turn_retry _ _ _ _ _ _ _ _ _ _ _ _ Hd Hr Ha Hm).
      intros [= <- <-]. simpl. eexists. split; [done|].
      intros err0 Ht. destruct r as [newShards|err'].
      * destruct (check_shards _ _ _).2; simplify_eq.
        exists (CallDispatch keyspace shards (Some err0)).
        split; [apply list_elem_of_here|done].
      * simplify_eq.
        exists (CallMapToShards (check_keyspace keyspace alias).1 (Some err0)).
        split; [|done].
        do 2 apply list_elem_of_further. apply list_elem_of_here.
    + rewrite (retry_turn_not_retry _ _ _ _ _ _ _ _ Hd Hr). intros [= <- <-]. simpl.
      eexists. split; [done|]. intros err0 [= <-].
      exists (CallDispatch keyspace shards (Some err)).
      split; [apply list_elem_of_here|done].
Qed.

Lemma retry_loop_error_origin fuel keyspace shards st err st' :
  retry_loop env dispatch tabletType mapToShards fuel keyspace shards st
    = (Some (Err err), st') →
  ∃ new, calls st' = calls st ++ new ∧ ∃ c, c ∈ new ∧ returned_by err c.
Proof.
  revert keyspace shards st. induction fuel as [|fuel IH]; intros keyspace shards st;
    simpl; [by intros [=]|].
  unfold bind at 1.
  destruct (retry_turn env dispatch tabletType mapToShards keyspace shards st)
    as [t st1] eqn:Ht.
  apply retry_turn_calls in Ht as (new1 & Hc1 & Hret).
  destruct t as [[keyspace' shards']|r].
  - intros (new & Hc & c & Hin & Hc')%IH. exists (new1 ++ new).
    split; [by rewrite Hc, Hc1, app_assoc|]. exists c. split; [|done].
    apply elem_of_app. by right.
  - intros [= -> <-]. exists new1. split; [done|]. by apply Hret.
Qed.

Lemma resolve_and_retry_error_origin fuel keyspace st err st' :
  resolve_and_retry env dispatch tabletType mapToShards fuel keyspace st
    = (Some (Err err), st') →
  ∃ new, calls st' = calls st ++ new ∧ ∃ c, c ∈ new ∧ returned_by err c.
Proof.
  unfold resolve_and_retry. unfold bind at 1, call at 1.
  destruct (mapToShards keyspace (world st)) as [[shards|err'] w1].
  - intros (new & Hc & c & Hin & Hc')%retry_loop_error_origin. simpl in Hc.
    exists (CallMapToShards keyspace None :: new).
    split; [by rewrite Hc, <- app_assoc|]. exists c. split; [|done].
    by apply list_elem_of_further.
  - intros [= <- <-]. simpl. eexists. split; [done|].
    exists (CallMapToShards keyspace (Some err')).
    split; [apply list_elem_of_here|done].
Qed.

End error_origin.

(** A turn in which [getKeyspaceAlias] fails. *)
Lemma check_shards_false newShards shards :
  check_shards newShards shards false =
  ((if bool_decide (newShards ≡ₚ shards) then (StrsEquals newShards shards).2
    else (StrsEquals newShards shards).1.2),
   negb (bool_decide (newShards ≡ₚ shards))).
Proof.
  unfold check_shards. rewrite <- StrsEquals_result.
  destruct (StrsEquals newShards shards) as [[equal a] b]. simpl. by destruct equal.
Qed.

Lemma retry_turn_alias_error {A} (dispatch : string → list string → W → result A * W)
    tabletType mapToShards keyspace shards st err w1 err_alias w2 r w3 :
  dispatch keyspace shards (world st) = (Err err, w1) →
  is_retry env err = true →
  getKeyspaceAlias env keyspace tabletType w1 = (Err err_alias, w2) →
  mapToShards keyspace w2 = (r, w3) →
  retry_turn env dispatch tabletType mapToShards keyspace shards st =
  (match r with
   | Err err' => Return (Err err')
   | Ok newShards =>
       if bool_decide (newShards ≡ₚ shards) then Return (Err err)
       else Continue (keyspace, (StrsEquals newShards shards).1.2)
   end,
   {| world := w3;
      calls := calls st ++
        [CallDispatch keyspace shards (Some err);
         CallGetKeyspaceAlias keyspace (Some err_alias);
         CallMapToShards keyspace (err_of r)] |}).
Proof.
  intros Hd Hr Ha Hm.
  rewrite (retry_turn_retry dispatch tabletType mapToShards keyspace shards st
             err w1 (Err err_alias) w2 r w3 Hd Hr Ha Hm).
  simpl. destruct r as [newShards|err']; [|done].
  rewrite check_shards_false. simpl. by destruct (bool_decide _).
Qed.

Lemma set_Keyspace_same
    (query : @EntityIdsQuery TabletType Session EntityKeyspaceIdMap) :
  set_Keyspace query (Keyspace query) = query.
Proof. by destruct query. Qed.

Lemma resolve_entity_ids_calls query st r st' :
  resolve_entity_ids env query st = (r, st') →
  calls st' = calls st ++ [CallMapToShards (Keyspace query) (err_of r)].
Proof.
  unfold resolve_entity_ids, bind, call, range, ret.
  destruct (mapEntityIdsToShards env _ _ _ (world st)) as [[shardMap|err] w1]; simpl.
  - destruct (range_shardMap env shardMap w1) as [entries w2]. by intros [= <- <-].
  - by intros [= <- <-].
Qed.

Lemma ExecuteEntityIds_turn_alias_error query shards sqls bindVars st
    err w1 err_alias w2 r st3 :
  scatterConn_ExecuteEntityIds env shards sqls bindVars (Keyspace query)
    (TabletType_ query) (Session_ query) (world st) = (Err err, w1) →
  is_retry env err = true →
  getKeyspaceAlias env (Keyspace query) (TabletType_ query) w1 = (Err err_alias, w2) →
  resolve_entity_ids env query
    {| world := w2;
       calls := calls st ++
         [CallDispatch (Keyspace query) shards (Some err);
          CallGetKeyspaceAlias (Keyspace query) (Some err_alias)] |} = (r, st3) →
  ExecuteEntityIds_turn env query (shards, sqls, bindVars) st =
  (match r with
   | Err err' => Return (Err err')
   | Ok (newShards, newSqls, newBindVars) =>
       if bool_decide (newShards ≡ₚ shards) then Return (Err err)
       else Continue (query, ((StrsEquals newShards shards).1.2, newSqls, newBindVars))
   end, st3).
Proof.
  intros Hd Hr Ha Hres. unfold ExecuteEntityIds_turn.
  unfold bind at 1, call at 1. rewrite Hd, Hr.
  unfold bind at 1, call at 1. simpl world. rewrite Ha. rewrite check_keyspace_Err.
  cbv iota beta. rewrite set_Keyspace_same. unfold bind at 1.
  simpl calls. simpl err_of. rewrite <- app_assoc. simpl app. rewrite Hres.
  destruct r as [[[newShards newSqls] newBindVars]|err']; [|done].
  rewrite <- StrsEquals_result.
  destruct (StrsEquals newShards shards) as [[equal a] b]. simpl. by destruct equal.
Qed.

Lemma ExecuteEntityIds_turn_calls query routing st t st' :
  ExecuteEntityIds_turn env query routing st = (t, st') →
  ∃ new, calls st' = calls st ++ new ∧
    ∀ err, t = Return (Err err) → ∃ c, c ∈ new ∧ returned_by err c.
Proof.
  destruct routing as [[shards sqls] bindVars]. unfold ExecuteEntityIds_turn.
  unfold bind at 1, call at 1.
  destruct (scatterConn_ExecuteEntityIds env shards sqls bindVars (Keyspace query)
              (TabletType_ query) (Session_ query) (world st)) as [[qr|err] w1].
  - intros [= <- <-]. simpl. eexists. split; [done|]. by intros err [=].
  - destruct (is_retry env err) eqn:Hr.
    + unfold bind at 1, call at 1. simpl world.
      destruct (getKeyspaceAlias env (Keyspace query) (TabletType_ query) w1)
        as [alias w2].
      destruct (check_keyspace (Keyspace query) alias) as [keyspace' resharding].
      unfold bind at 1.
      destruct (resolve_entity_ids env (set_Keyspace query keyspace') _)
        as [r st3] eqn:Hres.
      apply resolve_entity_ids_calls in Hres. simpl in Hres.
      rewrite <- !app_assoc in Hres. simpl in Hres.
      destruct r as [[[newShards newSqls] newBindVars]|err'].
      * destruct (StrsEquals newShards shards) as [[equal a] b].
        destruct (negb equal); [|destruct resharding]; intros [= <- <-];
          (eexists; split; [done|]); intros err0 [=]; subst.
        exists (CallDispatch (Keyspace query) shards (Some err0)).
        split; [apply list_elem_of_here|done].
      * intros [= <- <-]. eexists. split; [done|]. intros err0 [= <-].
        exists (CallMapToShards keyspace' (Some err')). split; [|done].
        do 2 apply list_elem_of_further. apply list_elem_of_here.
    + intros [= <- <-]. simpl. eexists. split; [done|]. intros err0 [= <-].
      exists (CallDispatch (Keyspace query) shards (Some err)).
      split; [apply list_elem_of_here|done].
Qed.

Lemma ExecuteEntityIds_loop_error_origin fuel query routing st err st' :
  ExecuteEntityIds_loop env fuel query routing st = (Some (Err err), st') →
  ∃ new, calls st' = calls st ++ new ∧ ∃ c, c ∈ new ∧ returned_by err c.
Proof.
  revert query routing st. induction fuel as [|fuel IH]; intros query routing st;
    simpl; [by intros [=]|].
  unfold bind at 1.
  destruct (ExecuteEntityIds_turn env query routing st) as [t st1] eqn:Ht.
  apply ExecuteEntityIds_turn_calls in Ht as (new1 & Hc1 & Hret).
  destruct t as [[query' routing']|r].
  - intros (new & Hc & c & Hin & Hc')%IH. exists (new1 ++ new).
    split; [by rewrite Hc, Hc1, app_assoc|]. exists c. split; [|done].
    apply elem_of_app. by right.
  - intros [= -> <-]. exists new1. split; [done|]. by apply Hret.
Qed.

Lemma ExecuteEntityIds_error_origin fuel query st err st' :
  ExecuteEntityIds env fuel query st = (Some (Err err), st') →
  ∃ new, calls st' = calls st ++ new ∧ ∃ c, c ∈ new ∧ returned_by err c.
Proof.
  unfold ExecuteEntityIds. unfold bind at 1.
  destruct (resolve_entity_ids env query st) as [r st1] eqn:Hres.
  apply resolve_entity_ids_calls in Hres.
  destruct r as [routing|err'].
  - intros (new & Hc & c & Hin & Hc')%ExecuteEntityIds_loop_error_origin.
    eexists. split; [by rewrite Hc, Hres, <- app_assoc|]. exists c. split; [|done].
    by apply list_elem_of_further.
  - intros [= <- <-]. eexists. split; [done|].
    exists (CallMapToShards (Keyspace query) (Some err')).
    split; [apply list_elem_of_here|done].
Qed.

(** ** C9: in the loops of [Execute], [ExecuteBatch] and
    [ExecuteEntityIds], an error of [getKeyspaceAlias] after a RETRY is
    dropped: the turn goes on to resolve the shards under the keyspace
    it had, and ends as that resolution and the comparison of the
    shards decide; whatever error one of the three returns is the error
    a resolution or a dispatch of that invocation came back with. *)
Theorem getKeyspaceAlias_error_not_surfaced :
  (∀ sql bindVars tabletType session mapToShards keyspace shards
     (st : State W) err w1 err_alias w2 r w3,
     scatterConn_Execute env sql bindVars keyspace shards tabletType session (world st)
       = (Err err, w1) →
     is_retry env err = true →
     getKeyspaceAlias env keyspace tabletType w1 = (Err err_alias, w2) →
     mapToShards keyspace w2 = (r, w3) →
     Execute_turn env sql bindVars tabletType session mapToShards keyspace shards st =
     (match r with
      | Err err' => Return (Err err')
      | Ok newShards =>
          if bool_decide (newShards ≡ₚ shards) then Return (Err err)
          else Continue (keyspace, (StrsEquals newShards shards).1.2)
      end,
      {| world := w3;
         calls := calls st ++
           [CallDispatch keyspace shards (Some err);
            CallGetKeyspaceAlias keyspace (Some err_alias);
            CallMapToShards keyspace (err_of r)] |})) ∧
  (∀ queries tabletType session mapToShards keyspace shards
     (st : State W) err w1 err_alias w2 r w3,
     scatterConn_ExecuteBatch env queries keyspace shards tabletType session (world st)
       = (Err err, w1) →
     is_retry env err = true →
     getKeyspaceAlias env keyspace tabletType w1 = (Err err_alias, w2) →
     mapToShards keyspace w2 = (r, w3) →
     ExecuteBatch_turn env queries tabletType session mapToShards keyspace shards st =
     (match r with
      | Err err' => Return (Err err')
      | Ok newShards =>
          if bool_decide (newShards ≡ₚ shards) then Return (Err err)
          else Continue (keyspace, (StrsEquals newShards shards).1.2)
      end,
      {| world := w3;
         calls := calls st ++
           [CallDispatch keyspace shards (Some err);
            CallGetKeyspaceAlias keyspace (Some err_alias);
            CallMapToShards keyspace (err_of r)] |})) ∧
  (∀ query shards sqls bindVars (st : State W) err w1 err_alias w2 r st3,
     scatterConn_ExecuteEntityIds env shards sqls bindVars (Keyspace query)
       (TabletType_ query) (Session_ query) (world st) = (Err err, w1) →
     is_retry env err = true →
     getKeyspaceAlias env (Keyspace query) (TabletType_ query) w1 = (Err err_alias, w2) →
     resolve_entity_ids env query
       {| world := w2;
          calls := calls st ++
            [CallDispatch (Keyspace query) shards (Some err);
             CallGetKeyspaceAlias (Keyspace query) (Some err_alias)] |} = (r, st3) →
     ExecuteEntityIds_turn env query (shards, sqls, bindVars) st =
     (match r with
      | Err err' => Return (Err err')
      | Ok (newShards, newSqls, newBindVars) =>
          if bool_decide (newShards ≡ₚ shards) then Return (Err err)
          else Continue (query, ((StrsEquals newShards shards).1.2, newSqls, newBindVars))
      end, st3)) ∧
  (∀ fuel sql bindVars keyspace tabletType session mapToShards (st st' : State W) err,
     Execute env fuel sql bindVars keyspace tabletType session mapToShards st
       = (Some (Err err), st') →
     ∃ new, calls st' = calls st ++ new ∧ ∃ c, c ∈ new ∧ returned_by err c) ∧
  (∀ fuel queries keyspace tabletType session mapToShards (st st' : State W) err,
     ExecuteBatch env fuel queries keyspace tabletType session mapToShards st
       = (Some (Err err), st') →
     ∃ new, calls st' = calls st ++ new ∧ ∃ c, c ∈ new ∧ returned_by err c) ∧
  (∀ fuel query (st st' : State W) err,
     ExecuteEntityIds env fuel query st = (Some (Err err), st') →
     ∃ new, calls st' = calls st ++ new ∧ ∃ c, c ∈ new ∧ returned_by err c).
Proof.
  split_and!.
  - intros. unfold Execute_turn. by eapply retry_turn_alias_error.
  - intros. unfold ExecuteBatch_turn. by eapply retry_turn_alias_error.
  - intros. by eapply ExecuteEntityIds_turn_alias_error.
  - intros *. apply resolve_and_retry_error_origin.
  - intros *. apply resolve_and_retry_error_origin.
  - intros *. apply ExecuteEntityIds_error_origin.
Qed.

End resolver_facts.

(** * The scenarios of the specification, in the scripted world *)

(** RETRY without a change of the topology: shard ["0"] answers RETRY and
    the keyspace resolves to ["0"] again. *)
Lemma Execute_retry_without_resharding_witness :
  Execute_loop (Scripted.env (Ok "user")) 1 "select 1" ∅ () ()
    (Scripted.mapToShards (Ok ["0"]) (Ok ["0"])) "user" ["0"] Scripted.start
  = (Some (Err Scripted.retry_error),
     {| world := 1%nat;
        calls := [CallDispatch "user" ["0"] (Some Scripted.retry_error);
                  CallGetKeyspaceAlias "user" None;
                  CallMapToShards "user" None] |}).
Proof.
  apply (Execute_retry_without_resharding (Scripted.env (Ok "user")) 0 "select 1" ∅ () ()
           (Scripted.mapToShards (Ok ["0"]) (Ok ["0"])) "user" ["0"] ["0"]
           Scripted.start Scripted.retry_error 1%nat 1%nat 1%nat); reflexivity.
Defined.

(** RETRY with a horizontal reshard: ["0"] becomes ["-80"; "80-"] and the
    second dispatch succeeds. *)
Lemma Execute_retry_after_resharding_witness :
  ∃ shards',
    shards' ≡ₚ ["-80"; "80-"] ∧
    Execute (Scripted.env (Ok "user")) 2 "select 1" ∅ "user" () ()
      (Scripted.mapToShards (Ok ["0"]) (Ok ["-80"; "80-"])) Scripted.start
    = (Some (Ok ()),
       {| world := 2%nat;
          calls := [CallMapToShards "user" None;
                    CallDispatch "user" ["0"] (Some Scripted.retry_error);
                    CallGetKeyspaceAlias "user" None;
                    CallMapToShards "user" None;
                    CallDispatch "user" shards' None] |}).
Proof.
  destruct (Execute_retry_after_resharding (Scripted.env (Ok "user")) 0 "select 1" ∅
              "user" () () (Scripted.mapToShards (Ok ["0"]) (Ok ["-80"; "80-"]))
              ["0"] ["-80"; "80-"] (Ok "user") Scripted.start Scripted.retry_error
              0%nat 1%nat 1%nat 1%nat eq_refl eq_refl eq_refl eq_refl eq_refl)
    as (keyspace' & shards' & Hks & _ & Hperm & _ & Hexec).
  - right. intros Hp. apply Permutation_length in Hp. discriminate Hp.
  - exists shards'. split; [exact Hperm|].
    rewrite (Hks "user" eq_refl) in Hexec.
    exact (proj1 (Hexec () 2%nat eq_refl)).
Defined.

(** [StreamExecute] on the one shard ["0"]. *)
Lemma StreamExecute_single_shard_witness :
  StreamExecute (Scripted.env (Ok "user")) "select 1" ∅ "user" () ()
    (Scripted.mapToShards (Ok ["0"]) (Ok ["0"])) () Scripted.start
  = (None,
     {| world := 1%nat;
        calls := [CallMapToShards "user" None; CallDispatch "user" ["0"] None] |}).
Proof.
  exact (proj2 (StreamExecute_single_shard (Scripted.env (Ok "user")) "select 1" ∅ "user"
                  () () (Scripted.mapToShards (Ok ["0"]) (Ok ["0"])) () Scripted.start
                  ["0"] 0%nat eq_refl) "0" None 1%nat eq_refl eq_refl).
Defined.

(** C3, as the claim states it, fails on the message: for the two shards ["-80"] and
    ["80-"] the error of [StreamExecute] is "Resolved to more than one
    shard", with a capital R, and no call to ScatterConn is made. *)
Lemma StreamExecute_error_message :
  StreamExecute (Scripted.env (Ok "user")) "select 1" ∅ "user" () ()
    (Scripted.mapToShards (Ok ["-80"; "80-"]) (Ok ["-80"; "80-"])) () Scripted.start
  = (Some (errorString "Resolved to more than one shard"),
     {| world := 0%nat; calls := [CallMapToShards "user" None] |}) ∧
  errorString "Resolved to more than one shard"
    ≠ errorString "resolved to more than one shard".
Proof. split; [reflexivity|discriminate]. Qed.

(** Both slices sorted for two shards against two, and the next dispatch
    of [Execute] on the sorted shards. *)
Lemma StrsEquals_sorts_in_place_witness :
  (StrsEquals ["80-"; "-80"] ["b"; "a"]).1.2 = ["-80"; "80-"] ∧
  (StrsEquals ["80-"; "-80"] ["b"; "a"]).2 = ["a"; "b"] ∧
  ∀ keyspace' shards' st',
    Execute_turn (Scripted.env (Ok "user")) "select 1" ∅ () ()
      (Scripted.mapToShards (Ok ["b"; "a"]) (Ok ["80-"; "-80"])) "user" ["b"; "a"]
      Scripted.start = (Continue (keyspace', shards'), st') →
    shards' = ["-80"; "80-"].
Proof.
  pose proof (StrsEquals_sorts_in_place (Scripted.env (Ok "user")) ["80-"; "-80"] ["b"; "a"])
    as (Hsame & _ & Hturn).
  destruct (Hsame eq_refl) as (Ha & Hb & _).
  split; [exact Ha|]. split; [exact Hb|].
  intros keyspace' shards' st' Ht.
  exact (proj2 (proj1 (Hturn "select 1" ∅ () () _ "user" Scripted.start st'
                         Scripted.retry_error (Ok "user") 1%nat 1%nat 1%nat
                         keyspace' shards' eq_refl eq_refl eq_refl eq_refl Ht) eq_refl)).
Defined.

(** C8, as the claim states it, fails when the number of shards changes: ["0"] resolved
    again to ["80-"; "-80"] is dispatched in that order, which is not
    sorted. *)
Lemma Execute_dispatches_unsorted_shards :
  Execute_turn (Scripted.env (Ok "user")) "select 1" ∅ () ()
    (Scripted.mapToShards (Ok ["0"]) (Ok ["80-"; "-80"])) "user" ["0"] Scripted.start
  = (Continue ("user", ["80-"; "-80"]),
     {| world := 1%nat;
        calls := [CallDispatch "user" ["0"] (Some Scripted.retry_error);
                  CallGetKeyspaceAlias "user" None;
                  CallMapToShards "user" None] |}) ∧
  ¬ Sorted String.le ["80-"; "-80"].
Proof.
  split; [reflexivity|].
  intros Hs. inversion Hs as [|x l Hl Hhd]; subst.
  inversion Hhd as [|y l' Hle]; subst. by vm_compute in Hle.
Qed.

(** RETRY, then an error of [getKeyspaceAlias], with the shards unchanged:
    the turn returns the RETRY error, not the error of the lookup. *)
Lemma getKeyspaceAlias_error_not_surfaced_witness :
  Execute_turn (Scripted.env (Err (errorString "node doesn't exist"))) "select 1" ∅ () ()
    (Scripted.mapToShards (Ok ["0"]) (Ok ["0"])) "user" ["0"] Scripted.start
  = (Return (Err Scripted.retry_error),
     {| world := 1%nat;
        calls := [CallDispatch "user" ["0"] (Some Scripted.retry_error);
                  CallGetKeyspaceAlias "user" (Some (errorString "node doesn't exist"));
                  CallMapToShards "user" None] |}).
Proof.
  exact (proj1 (getKeyspaceAlias_error_not_surfaced
                  (Scripted.env (Err (errorString "node doesn't exist"))))
           "select 1" ∅ () () (Scripted.mapToShards (Ok ["0"]) (Ok ["0"])) "user" ["0"]
           Scripted.start Scripted.retry_error 1%nat (errorString "node doesn't exist")
           1%nat (Ok ["0"]) 1%nat eq_refl eq_refl eq_refl eq_refl).
Defined.

(** * [insertSqlClause] and the specification *)

(** What the code computes: on ASCII text, [insertSqlClause] splices at
    the least of the offsets, other than 0, of the leftmost occurrences of
    " group by", " order by", " limit" and " for update" in the
    lower-cased statement, and at its end when there is none; it writes
    " and " before the clause when the lower-cased statement contains
    "where" and " where " when it does not, and returns
    [sql[:idx] + prefix + clause + sql[idx:]]; the statement of the
    specification's scenario comes out as the specification says. *)
Theorem insertSqlClause_splices (querySql clause : string) :
  ascii_text querySql = true →
  splice_index (ToLower querySql) keywords (idxExtraOf querySql) ∧
  (Contains (ToLower querySql) "where" = true
     ↔ ∃ j, occurs_at "where" (ToLower querySql) j) ∧
  insertSqlClause querySql clause =
    slice_to querySql (idxExtraOf querySql)
      +:+ (if Contains (ToLower querySql) "where" then " and " else " where ")
      +:+ clause +:+ slice_from querySql (idxExtraOf querySql) ∧
  insertSqlClause "SELECT * FROM t WHERE a=1 ORDER BY b LIMIT 10" "id in (:e0,:e1)"
    = "SELECT * FROM t WHERE a=1 and id in (:e0,:e1) ORDER BY b LIMIT 10".
Proof.
  intros _. split_and!.
  - apply idxExtraOf_splice_index.
  - by apply Contains_occurs.
  - apply insertSqlClause_unfold.
  - apply insertSqlClause_order_limit.
Qed.

Lemma insertSqlClause_splices_witness :
  ascii_text "select a from t group by a limit 3" = true ∧
  splice_index (ToLower "select a from t group by a limit 3") keywords
    (idxExtraOf "select a from t group by a limit 3") ∧
  insertSqlClause "select a from t group by a limit 3" "b = 2"
    = "select a from t where b = 2 group by a limit 3".
Proof.
  split; [reflexivity|].
  destruct (insertSqlClause_splices "select a from t group by a limit 3" "b = 2" eq_refl)
    as (Hidx & _ & Heq & _).
  split; [exact Hidx|]. rewrite Heq. reflexivity.
Defined.

(** ** C4, at the statement " limit 1": the leftmost occurrence of
    " limit" is at offset 0, which the test [idx > 0] takes for no
    occurrence, so the clause is written at the end of the statement;
    the first index of a keyword, where the comment of the function and
    the specification put the clause, is 0. *)
Theorem insertSqlClause_keyword_at_offset_0 :
  leftmost " limit" (ToLower " limit 1") 0 ∧
  idxExtraOf " limit 1" = 8 ∧
  insertSqlClause " limit 1" "c" = " limit 1 where c" ∧
  insert_sql_clause_spec " limit 1" "c" = " where c limit 1" ∧
  insertSqlClause " limit 1" "c" ≠ insert_sql_clause_spec " limit 1" "c".
Proof.
  split_and!; [by apply Index_found|reflexivity..|discriminate].
Qed.

(** ** C5 (amended): when the first clause, lower-cased and preceded by
    a space, contains none of the four keywords, inserting it and then a
    second clause into an ASCII statement gives
    [q[:idx] + prefix + c1 + " and " + c2 + q[idx:]], with the splice
    index and the prefix of the first insertion: each clause is written
    once, the first right before the " and " of the second. *)
Theorem insertSqlClause_twice (q c1 c2 : string) :
  ascii_text q = true → ascii_text c1 = true →
  clause_free c1 = true →
  insertSqlClause (insertSqlClause q c1) c2 =
    slice_to q (idxExtraOf q) +:+ where_prefix q +:+ c1 +:+ " and " +:+ c2
      +:+ slice_from q (idxExtraOf q).
Proof. intros _ _. apply insertSqlClause_insertSqlClause. Qed.

Lemma insertSqlClause_twice_witness :
  insertSqlClause (insertSqlClause "select * from t order by a" "b = 1") "c = 2"
  = "select * from t where b = 1 and c = 2 order by a".
Proof.
  rewrite (insertSqlClause_twice "select * from t order by a" "b = 1" "c = 2"
             eq_refl eq_refl eq_refl).
  reflexivity.
Defined.

(** C5, as the claim states it, fails for a first clause that contains a
    keyword: the
    second clause is written inside the first, which then occurs nowhere
    in the result. *)
Lemma insertSqlClause_twice_splits_clause :
  insertSqlClause
    (insertSqlClause "select * from t" "id in (select id from u limit 1)") "x = 1"
  = "select * from t where id in (select id from u and x = 1 limit 1)" ∧
  occurrences "id in (select id from u limit 1)"
    "select * from t where id in (select id from u and x = 1 limit 1)" = [].
Proof. split; by vm_compute. Qed.

(** * More of [topo/replication.go] *)

Section replication_more_facts.
Context {TabletAlias : Type} `{EqDecision TabletAlias}.
Variable IsZero : TabletAlias → bool.
Variable ErrNoNode : error.

Local Abbreviation link_t := (ReplicationLink TabletAlias).

Lemma links_of_others_idemp (ta : TabletAlias) (links : list link_t) :
  links_of_others ta (links_of_others ta links) = links_of_others ta links.
Proof.
  unfold links_of_others. induction links as [|l links IH]; [done|].
  rewrite filter_cons. case_decide; [|done]. rewrite filter_cons, decide_True by done.
  by rewrite IH.
Qed.

Lemma links_of_links_of_others (ta : TabletAlias) (links : list link_t) :
  links_of ta (links_of_others ta links) = [].
Proof.
  unfold links_of, links_of_others. induction links as [|l links IH]; [done|].
  rewrite filter_cons. case_decide; [|done]. by rewrite filter_cons, decide_False.
Qed.

Lemma links_of_others_other (ta ta' : TabletAlias) (links : list link_t) :
  ta' ≠ ta → links_of ta' (links_of_others ta links) = links_of ta' links.
Proof.
  intros Hne. unfold links_of, links_of_others. induction links as [|l links IH]; [done|].
  rewrite !filter_cons. repeat case_decide; simplify_eq; rewrite ?filter_cons, ?decide_True,
    ?decide_False by done; by rewrite ?IH.
Qed.

(** The loop of [AddShardReplicationRecord], position by position. *)
Lemma AddShardReplicationRecord_range_found ta parent (rest links : list link_t) :
  AddShardReplicationRecord_range IsZero ta parent rest links true
  = (links ++ links_of_others ta rest, true).
Proof.
  revert links. induction rest as [|l rest IH]; intros links; simpl.
  - by rewrite app_nil_r.
  - rewrite (links_of_others_cons ta). case_decide; [by rewrite IH|].
    by rewrite IH, <- app_assoc.
Qed.

Lemma AddShardReplicationRecord_range_not_found ta parent (rest links : list link_t) :
  IsZero parent = false →
  let '(links', found) :=
    AddShardReplicationRecord_range IsZero ta parent rest links false in
  (if found then links' else links' ++ [{| TabletAlias_ := ta; Parent := parent |}])
  = links ++ set_parent ta parent rest.
Proof.
  intros Hz. revert links. induction rest as [|l rest IH]; intros links; simpl; [done|].
  case_decide as Hl.
  - rewrite Hz, AddShardReplicationRecord_range_found, Hl. by rewrite <- app_assoc.
  - specialize (IH (links ++ [l])).
    destruct (AddShardReplicationRecord_range _ _ _ rest _ false) as [links' found].
    by rewrite IH, <- app_assoc.
Qed.

Lemma AddShardReplicationRecord_range_zero ta parent (rest links : list link_t) found :
  IsZero parent = true →
  (AddShardReplicationRecord_range IsZero ta parent rest links found).1
  = links ++ links_of_others ta rest.
Proof.
  intros Hz. revert links found. induction rest as [|l rest IH]; intros links found; simpl.
  - by rewrite app_nil_r.
  - rewrite (links_of_others_cons ta). case_decide.
    + destruct found; [by rewrite IH|]. by rewrite Hz, IH.
    + by rewrite IH, <- app_assoc.
Qed.

Lemma RemoveShardReplicationRecord_range_spec ta (rest links : list link_t) :
  RemoveShardReplicationRecord_range ta rest links = links ++ links_of_others ta rest.
Proof.
  revert links. induction rest as [|l rest IH]; intros links; simpl.
  - by rewrite app_nil_r.
  - rewrite (links_of_others_cons ta).
    repeat case_decide; try done; by rewrite IH, <- ?app_assoc.
Qed.

Lemma RemoveShardReplicationRecord_f_links ta (sr : ShardReplication TabletAlias) :
  ReplicationLinks (RemoveShardReplicationRecord_f ta sr)
  = links_of_others ta (ReplicationLinks sr).
Proof. unfold RemoveShardReplicationRecord_f. simpl. apply RemoveShardReplicationRecord_range_spec. Qed.

(** The list [AddShardReplicationRecord] makes. *)
Lemma AddShardReplicationRecord_f_list ta parent (sr : ShardReplication TabletAlias) :
  ReplicationLinks (AddShardReplicationRecord_f IsZero ta parent sr)
  = if IsZero parent then links_of_others ta (ReplicationLinks sr)
    else set_parent ta parent (ReplicationLinks sr).
Proof.
  unfold AddShardReplicationRecord_f. destruct (IsZero parent) eqn:Hz.
  - pose proof (AddShardReplicationRecord_range_zero ta parent (ReplicationLinks sr) [] false Hz)
      as Hr.
    destruct (AddShardReplicationRecord_range _ _ _ _ [] false) as [links found].
    simpl in *. by rewrite andb_false_r.
  - pose proof (AddShardReplicationRecord_range_not_found ta parent (ReplicationLinks sr) [] Hz)
      as Hr.
    destruct (AddShardReplicationRecord_range _ _ _ _ [] false) as [links found].
    simpl in *. rewrite andb_true_r. by destruct found.
Qed.

Lemma GetReplicationLink_links_of (links : list link_t) ta :
  GetReplicationLink ErrNoNode links ta =
  match links_of ta links with [] => Err ErrNoNode | rl :: _ => Ok rl end.
Proof.
  induction links as [|l links IH]; [done|]. simpl.
  rewrite (links_of_cons ta). by case_decide.
Qed.

Lemma links_of_set_parent ta parent (links : list link_t) :
  links_of ta (set_parent ta parent links) = [{| TabletAlias_ := ta; Parent := parent |}].
Proof.
  induction links as [|l links IH]; simpl.
  - by rewrite (links_of_cons ta), decide_True.
  - case_decide.
    + rewrite (links_of_cons ta), decide_True by done. by rewrite links_of_links_of_others.
    + by rewrite (links_of_cons ta), decide_False.
Qed.

Lemma links_of_set_parent_other ta ta' parent (links : list link_t) :
  ta' ≠ ta → links_of ta' (set_parent ta parent links) = links_of ta' links.
Proof.
  intros Hne. induction links as [|l links IH]; simpl.
  - by rewrite (links_of_cons ta'), decide_False.
  - case_decide as Hl.
    + rewrite !(links_of_cons ta'). simpl. rewrite Hl.
      rewrite !decide_False by done. by apply links_of_others_other.
    + rewrite !(links_of_cons ta'). by rewrite IH.
Qed.

Lemma links_of_nil_not_elem ta (links : list link_t) :
  links_of ta links = [] ↔ ∀ l, l ∈ links → TabletAlias_ l ≠ ta.
Proof.
  unfold links_of. induction links as [|l links IH]; simpl.
  - split; [|done]. by intros _ l ?%elem_of_nil.
  - rewrite filter_cons. case_decide as Hl.
    + split; [done|]. intros Hall. destruct (Hall l); [apply list_elem_of_here|done].
    + rewrite IH. split.
      * intros Hall l' [->|?]%elem_of_cons; auto.
      * intros Hall l' ?. apply Hall. by apply list_elem_of_further.
Qed.

Lemma links_of_others_id ta (links : list link_t) :
  links_of ta links = [] → links_of_others ta links = links.
Proof.
  rewrite links_of_nil_not_elem. intros Hall. unfold links_of_others.
  induction links as [|l links IH]; [done|].
  rewrite filter_cons, decide_True by (apply Hall, list_elem_of_here).
  rewrite IH; [done|]. intros l' ?. apply Hall. by apply list_elem_of_further.
Qed.

(** [GetReplicationLink] returns the first link of the tablet, and
    [ErrNoNode] exactly when the tablet has no link. *)
Theorem GetReplicationLink_first (links : list link_t) (ta : TabletAlias) :
  match GetReplicationLink ErrNoNode links ta with
  | Ok rl =>
      TabletAlias_ rl = ta ∧
      ∃ before after, links = before ++ rl :: after ∧
                      ∀ l, l ∈ before → TabletAlias_ l ≠ ta
  | Err err => err = ErrNoNode ∧ ∀ l, l ∈ links → TabletAlias_ l ≠ ta
  end.
Proof.
  induction links as [|l links IH]; simpl.
  - split; [done|]. by intros l ?%elem_of_nil.
  - case_decide as Hl.
    + split; [done|]. exists [], links. split; [done|]. by intros l' ?%elem_of_nil.
    + destruct (GetReplicationLink ErrNoNode links ta) as [rl|err].
      * destruct IH as (Hrl & before & after & -> & Hbefore). split; [done|].
        exists (l :: before), after. split; [done|].
        intros l' [->|?]%elem_of_cons; auto.
      * destruct IH as [-> Hall]. split; [done|].
        intros l' [->|?]%elem_of_cons; auto.
Qed.

(** After [AddShardReplicationRecord] the lookup of the tablet gives the
    link to the new parent, or [ErrNoNode] when the parent is zero; the
    lookup of every other tablet gives what it gave before. *)
Theorem AddShardReplicationRecord_then_GetReplicationLink
    (ta parent : TabletAlias) (sr : ShardReplication TabletAlias) :
  GetReplicationLink ErrNoNode
    (ReplicationLinks (AddShardReplicationRecord_f IsZero ta parent sr)) ta
  = (if IsZero parent then Err ErrNoNode
     else Ok {| TabletAlias_ := ta; Parent := parent |}) ∧
  ∀ ta', ta' ≠ ta →
    GetReplicationLink ErrNoNode
      (ReplicationLinks (AddShardReplicationRecord_f IsZero ta parent sr)) ta'
    = GetReplicationLink ErrNoNode (ReplicationLinks sr) ta'.
Proof.
  rewrite AddShardReplicationRecord_f_list. split.
  - rewrite GetReplicationLink_links_of. destruct (IsZero parent).
    + by rewrite links_of_links_of_others.
    + by rewrite links_of_set_parent.
  - intros ta' Hne. rewrite !GetReplicationLink_links_of. destruct (IsZero parent).
    + by rewrite links_of_others_other.
    + by rewrite links_of_set_parent_other.
Qed.

(** After [RemoveShardReplicationRecord] the links are those of the other
    tablets, in their order; the lookup of the tablet gives [ErrNoNode]
    and the lookup of every other tablet gives what it gave before. *)
Theorem RemoveShardReplicationRecord_then_GetReplicationLink
    (ta : TabletAlias) (sr : ShardReplication TabletAlias) :
  ReplicationLinks (RemoveShardReplicationRecord_f ta sr)
    = links_of_others ta (ReplicationLinks sr) ∧
  GetReplicationLink ErrNoNode (ReplicationLinks (RemoveShardReplicationRecord_f ta sr)) ta
    = Err ErrNoNode ∧
  ∀ ta', ta' ≠ ta →
    GetReplicationLink ErrNoNode (ReplicationLinks (RemoveShardReplicationRecord_f ta sr)) ta'
    = GetReplicationLink ErrNoNode (ReplicationLinks sr) ta'.
Proof.
  rewrite RemoveShardReplicationRecord_f_links. split_and!; [done| |].
  - by rewrite GetReplicationLink_links_of, links_of_links_of_others.
  - intros ta' Hne. by rewrite !GetReplicationLink_links_of, links_of_others_other.
Qed.

(** For a parent that is not zero, [AddShardReplicationRecord] changes
    the first link of the tablet where it stands and drops its later
    links; when the tablet has no link, the new link goes to the end. *)
Theorem AddShardReplicationRecord_f_in_place
    (ta parent : TabletAlias) (sr : ShardReplication TabletAlias) :
  IsZero parent = false →
  (∀ before l after,
     ReplicationLinks sr = before ++ l :: after →
     TabletAlias_ l = ta → (∀ l', l' ∈ before → TabletAlias_ l' ≠ ta) →
     ReplicationLinks (AddShardReplicationRecord_f IsZero ta parent sr)
     = before ++ {| TabletAlias_ := ta; Parent := parent |} :: links_of_others ta after) ∧
  ((∀ l, l ∈ ReplicationLinks sr → TabletAlias_ l ≠ ta) →
     ReplicationLinks (AddShardReplicationRecord_f IsZero ta parent sr)
     = ReplicationLinks sr ++ [{| TabletAlias_ := ta; Parent := parent |}]).
Proof.
  intros Hz. rewrite AddShardReplicationRecord_f_list, Hz. split.
  - intros before l after -> Hl Hbefore.
    induction before as [|b before IH]; simpl.
    + by rewrite decide_True.
    + rewrite decide_False by (apply Hbefore, list_elem_of_here).
      f_equal. apply IH. intros l' ?. apply Hbefore. by apply list_elem_of_further.
  - intros Hall. induction (ReplicationLinks sr) as [|l links IH]; simpl; [done|].
    rewrite decide_False by (apply Hall, list_elem_of_here).
    f_equal. apply IH. intros l' ?. apply Hall. by apply list_elem_of_further.
Qed.

(** With a zero parent, [AddShardReplicationRecord] updates the object as
    [RemoveShardReplicationRecord] does. *)
Theorem AddShardReplicationRecord_f_zero_parent
    (ta parent : TabletAlias) (sr : ShardReplication TabletAlias) :
  IsZero parent = true →
  AddShardReplicationRecord_f IsZero ta parent sr = RemoveShardReplicationRecord_f ta sr.
Proof.
  intros Hz.
  pose proof (AddShardReplicationRecord_f_list ta parent sr) as Ha.
  pose proof (RemoveShardReplicationRecord_f_links ta sr) as Hr.
  rewrite Hz in Ha.
  destruct (AddShardReplicationRecord_f IsZero ta parent sr) as [la].
  destruct (RemoveShardReplicationRecord_f ta sr) as [lr]. simpl in *. congruence.
Qed.

Lemma set_parent_idemp ta parent (links : list link_t) :
  set_parent ta parent (set_parent ta parent links) = set_parent ta parent links.
Proof.
  induction links as [|l links IH]; simpl.
  - by rewrite decide_True.
  - case_decide.
    + simpl. rewrite decide_True by done. by rewrite links_of_others_idemp.
    + simpl. rewrite decide_False by done. by rewrite IH.
Qed.

Lemma links_of_others_set_parent ta parent (links : list link_t) :
  links_of_others ta (set_parent ta parent links) = links_of_others ta links.
Proof.
  induction links as [|l links IH]; simpl.
  - by rewrite (links_of_others_cons ta), decide_True.
  - case_decide.
    + rewrite !(links_of_others_cons ta), !decide_True by done.
      apply links_of_others_idemp.
    + rewrite !(links_of_others_cons ta), !decide_False by done. by rewrite IH.
Qed.

(** Doing it twice is doing it once: a second [AddShardReplicationRecord]
    with the same tablet and parent, or a second
    [RemoveShardReplicationRecord], changes nothing, and a removal after
    an addition leaves what the removal alone leaves. *)
Theorem AddShardReplicationRecord_f_idempotent
    (ta parent : TabletAlias) (sr : ShardReplication TabletAlias) :
  AddShardReplicationRecord_f IsZero ta parent (AddShardReplicationRecord_f IsZero ta parent sr)
    = AddShardReplicationRecord_f IsZero ta parent sr ∧
  RemoveShardReplicationRecord_f ta (RemoveShardReplicationRecord_f ta sr)
    = RemoveShardReplicationRecord_f ta sr ∧
  RemoveShardReplicationRecord_f ta (AddShardReplicationRecord_f IsZero ta parent sr)
    = RemoveShardReplicationRecord_f ta sr.
Proof.
  assert (∀ x y : ShardReplication TabletAlias,
            ReplicationLinks x = ReplicationLinks y → x = y) as Hext.
  { intros [x] [y]. simpl. by intros ->. }
  split_and!; apply Hext.
  - rewrite !AddShardReplicationRecord_f_list. destruct (IsZero parent).
    + apply links_of_others_idemp.
    + apply set_parent_idemp.
  - rewrite !RemoveShardReplicationRecord_f_links. apply links_of_others_idemp.
  - rewrite !RemoveShardReplicationRecord_f_links, AddShardReplicationRecord_f_list.
    destruct (IsZero parent).
    + apply links_of_others_idemp.
    + apply links_of_others_set_parent.
Qed.

Lemma fmap_links_of_others_sublist ta (links : list link_t) :
  sublist (TabletAlias_ <$> links_of_others ta links) (TabletAlias_ <$> links).
Proof. apply fmap_sublist, sublist_filter. Qed.

Lemma elem_of_fmap_links_of_others ta a (links : list link_t) :
  a ∈ TabletAlias_ <$> links_of_others ta links ↔ a ∈ TabletAlias_ <$> links ∧ a ≠ ta.
Proof.
  unfold links_of_others. rewrite !list_elem_of_fmap. split.
  - intros (l & -> & [Hne Hl]%list_elem_of_filter). eauto.
  - intros [(l & -> & Hl) Hne]. exists l. split; [done|]. by apply list_elem_of_filter.
Qed.

Lemma elem_of_fmap_set_parent ta parent a (links : list link_t) :
  a ∈ TabletAlias_ <$> set_parent ta parent links ↔ a ∈ TabletAlias_ <$> links ∨ a = ta.
Proof.
  induction links as [|l links IH]; simpl.
  - rewrite list_elem_of_singleton, elem_of_nil. tauto.
  - case_decide as Hl; simpl.
    + rewrite !elem_of_cons, elem_of_fmap_links_of_others, Hl.
      destruct (decide (a = ta)); tauto.
    + rewrite !elem_of_cons, IH. tauto.
Qed.

(** The one-link-per-tablet invariant of [ShardReplication] is kept by
    both update functions, and neither makes the list longer than the
    capacity it allocates for it. *)
Theorem one_link_per_tablet_kept
    (ta parent : TabletAlias) (sr : ShardReplication TabletAlias) :
  (one_link_per_tablet (ReplicationLinks sr) →
     one_link_per_tablet (ReplicationLinks (AddShardReplicationRecord_f IsZero ta parent sr)) ∧
     one_link_per_tablet (ReplicationLinks (RemoveShardReplicationRecord_f ta sr))) ∧
  (length (ReplicationLinks (AddShardReplicationRecord_f IsZero ta parent sr))
     ≤ length (ReplicationLinks sr) + 1)%nat ∧
  (length (ReplicationLinks (RemoveShardReplicationRecord_f ta sr))
     ≤ length (ReplicationLinks sr))%nat.
Proof.
  rewrite AddShardReplicationRecord_f_list, RemoveShardReplicationRecord_f_links.
  unfold one_link_per_tablet. split_and!.
  - intros Hnd. split; [|by eapply sublist_NoDup; [|apply fmap_links_of_others_sublist]].
    destruct (IsZero parent);
      [by eapply sublist_NoDup; [|apply fmap_links_of_others_sublist]|].
    induction (ReplicationLinks sr) as [|l links IH]; simpl.
    + apply NoDup_singleton.
    + rewrite fmap_cons in Hnd. apply NoDup_cons in Hnd as [Hl Hnd].
      case_decide as Heq; simpl.
      * apply NoDup_cons. split.
        -- rewrite elem_of_fmap_links_of_others. tauto.
        -- by eapply sublist_NoDup; [|apply fmap_links_of_others_sublist].
      * apply NoDup_cons. split; [|by apply IH].
        rewrite elem_of_fmap_set_parent. tauto.
  - destruct (IsZero parent).
    + unfold links_of_others. pose proof (length_filter (λ l : link_t, TabletAlias_ l ≠ ta)
        (ReplicationLinks sr)). lia.
    + induction (ReplicationLinks sr) as [|l links IH]; simpl; [lia|].
      case_decide; simpl; [|lia].
      unfold links_of_others.
      pose proof (length_filter (λ l : link_t, TabletAlias_ l ≠ ta) links). lia.
  - unfold links_of_others. apply length_filter.
Qed.

End replication_more_facts.

(** * [replication.go] against a topology server *)

Section topo_server_facts.
Context {W TabletAlias TabletInfo : Type} `{EqDecision TabletAlias}.
Variable ts : Server W TabletAlias TabletInfo.

Local Abbreviation state := (TopoState W TabletAlias).

Lemma RemoveShardReplicationRecord_calls keyspace shard ta (st : state) :
  topo_calls (RemoveShardReplicationRecord ts keyspace shard ta st).2
  = topo_calls st ++ [CallUpdateShardReplicationFields (Cell ts ta) keyspace shard].
Proof.
  unfold RemoveShardReplicationRecord, topo_call.
  by destruct (UpdateShardReplicationFields ts _ _ _ _ (topo st)).
Qed.


Section with_store.
Variable read : W → string * string * string → option (ShardReplication TabletAlias).
Hypothesis Hstores : stores ts read.

(** On a server that stores the objects, [AddShardReplicationRecord]
    succeeds whether the object is there or not, and leaves in the cell
    of the tablet what its update function makes of the object that was
    there, or of the empty object; the other objects are as they were. *)
Theorem AddShardReplicationRecord_stored
    (keyspace shard : string) (ta parent : TabletAlias) (st : state) :
  let key := (Cell ts ta, keyspace, shard) in
  let old := default {| ReplicationLinks := [] |} (read (topo st) key) in
  let out := AddShardReplicationRecord ts keyspace shard ta parent st in
  out.1 = None ∧
  read (topo out.2) key = Some (AddShardReplicationRecord_f (IsZero ts) ta parent old) ∧
  ∀ k, k ≠ key → read (topo out.2) k = read (topo st) k.
Proof.
  simpl. unfold AddShardReplicationRecord, topo_call.
  destruct (read (topo st) (Cell ts ta, keyspace, shard)) as [sr|] eqn:Hr; simpl.
  - destruct (update_present ts read Hstores (Cell ts ta) keyspace shard
      (λ sr, (AddShardReplicationRecord_f (IsZero ts) ta parent sr, None))
      (topo st) sr _ Hr eq_refl) as (w' & -> & Hw' & Hother).
    simpl. done.
  - rewrite (update_absent ts read Hstores _ _ _ _ _ Hr). simpl.
    rewrite decide_True by done.
    destruct (create_absent ts read Hstores (Cell ts ta) keyspace shard
      {| ReplicationLinks := [] |} (topo st) Hr) as (w1 & -> & Hw1 & Hother1).
    simpl.
    destruct (update_present ts read Hstores (Cell ts ta) keyspace shard
      (λ sr, (AddShardReplicationRecord_f (IsZero ts) ta parent sr, None))
      w1 _ _ Hw1 eq_refl) as (w2 & -> & Hw2 & Hother2).
    simpl. split_and!; [done..|].
    intros k Hk. by rewrite Hother2, Hother1.
Qed.

(** [RemoveShardReplicationRecord] does not create: when the object is
    not there it returns [ErrNoNode] and the store is as it was; when it
    is there, the links of the tablet are taken out of it. *)
Theorem RemoveShardReplicationRecord_stored
    (keyspace shard : string) (ta : TabletAlias) (st : state) :
  let key := (Cell ts ta, keyspace, shard) in
  let out := RemoveShardReplicationRecord ts keyspace shard ta st in
  match read (topo st) key with
  | None => out.1 = Some (ErrNoNode ts) ∧ topo out.2 = topo st
  | Some sr =>
      out.1 = None ∧
      read (topo out.2) key = Some (RemoveShardReplicationRecord_f ta sr) ∧
      ∀ k, k ≠ key → read (topo out.2) k = read (topo st) k
  end.
Proof.
  simpl. unfold RemoveShardReplicationRecord, topo_call.
  destruct (read (topo st) (Cell ts ta, keyspace, shard)) as [sr|] eqn:Hr.
  - destruct (update_present ts read Hstores (Cell ts ta) keyspace shard
      (λ sr, (RemoveShardReplicationRecord_f ta sr, None))
      (topo st) sr _ Hr eq_refl) as (w' & -> & Hw' & Hother).
    done.
  - by rewrite (update_absent ts read Hstores _ _ _ _ _ Hr).
Qed.

End with_store.

(** [FixShardReplication] makes one update at most; the update is its
    last call, it comes right after the lookup of the tablet it removes,
    and it is for the cell of that tablet. *)
Lemma FixShardReplication_range_calls keyspace shard
    (links : list (ReplicationLink TabletAlias)) (st : state) :
  ∃ new, topo_calls (FixShardReplication_range ts keyspace shard links st).2
           = topo_calls st ++ new ∧
    (filter is_update new = [] ∨
     ∃ lookups a, new = lookups ++
                    [CallGetTablet a;
                     CallUpdateShardReplicationFields (Cell ts a) keyspace shard] ∧
                  filter is_update lookups = []).
Proof.
  revert st. induction links as [|rl rest IH]; intros st; simpl.
  - exists []. split; [by rewrite app_nil_r|by left].
  - unfold topo_call at 1.
    destruct (GetTablet ts (TabletAlias_ rl) (topo st)) as [[ti|err] w1].
    + destruct (is_TYPE_SCRAP ts ti).
      * rewrite RemoveShardReplicationRecord_calls. simpl.
        eexists. split; [by rewrite <- app_assoc|]. right.
        by exists [], (TabletAlias_ rl).
      * destruct (IH {| topo := w1;
                        topo_calls := topo_calls st ++ [CallGetTablet (TabletAlias_ rl)] |})
          as (new & -> & Hnew). simpl.
        exists (CallGetTablet (TabletAlias_ rl) :: new).
        split; [by rewrite <- app_assoc|].
        destruct Hnew as [Hnone|(lookups & a & -> & Hl)].
        -- left. by rewrite filter_cons.
        -- right. exists (CallGetTablet (TabletAlias_ rl) :: lookups), a.
           split; [done|]. by rewrite filter_cons.
    + case_decide.
      * rewrite RemoveShardReplicationRecord_calls. simpl.
        eexists. split; [by rewrite <- app_assoc|]. right.
        by exists [], (TabletAlias_ rl).
      * simpl. eexists. split; [done|]. by left.
Qed.

Theorem FixShardReplication_one_update (cell keyspace shard : string) (st : state) :
  ∃ new, topo_calls (FixShardReplication ts cell keyspace shard st).2
           = topo_calls st ++ new ∧
    (filter is_update new = [] ∨
     ∃ lookups a, new = lookups ++
                    [CallGetTablet a;
                     CallUpdateShardReplicationFields (Cell ts a) keyspace shard] ∧
                  filter is_update lookups = []).
Proof.
  unfold FixShardReplication, topo_call.
  destruct (GetShardReplication ts cell keyspace shard (topo st)) as [[sri|err] w1].
  - destruct (FixShardReplication_range_calls keyspace shard (ReplicationLinks sri)
      {| topo := w1;
         topo_calls := topo_calls st ++ [CallGetShardReplication cell keyspace shard] |})
      as (new & -> & Hnew). simpl.
    exists (CallGetShardReplication cell keyspace shard :: new).
    split; [by rewrite <- app_assoc|].
    destruct Hnew as [Hnone|(lookups & a & -> & Hl)].
    + left. by rewrite filter_cons.
    + right. exists (CallGetShardReplication cell keyspace shard :: lookups), a.
      split; [done|]. by rewrite filter_cons.
  - simpl. eexists. split; [done|]. by left.
Qed.

Section pure_lookup.
(** [GetTablet] leaves the server as it is: in the state [w1] the lookup
    of the replication object has left, it answers [tablet]. *)
Variable w1 : W.
Variable tablet : TabletAlias → result TabletInfo.
Hypothesis GetTablet_tablet : ∀ a, GetTablet ts a w1 = (tablet a, w1).

Lemma FixShardReplication_range_skip keyspace shard
    (before rest : list (ReplicationLink TabletAlias)) (cs : list (TopoCall TabletAlias)) :
  (∀ l, l ∈ before → ∃ ti, tablet (TabletAlias_ l) = Ok ti ∧ is_TYPE_SCRAP ts ti = false) →
  FixShardReplication_range ts keyspace shard (before ++ rest)
    {| topo := w1; topo_calls := cs |}
  = FixShardReplication_range ts keyspace shard rest
      {| topo := w1; topo_calls := cs ++ (CallGetTablet ∘ TabletAlias_ <$> before) |}.
Proof.
  revert cs. induction before as [|l before IH]; intros cs Hall; simpl.
  - by rewrite app_nil_r.
  - unfold topo_call at 1. simpl. rewrite GetTablet_tablet.
    destruct (Hall l) as (ti & -> & ->); [apply list_elem_of_here|].
    rewrite IH by (intros l' ?; apply Hall; by apply list_elem_of_further).
    by rewrite <- app_assoc.
Qed.

(** [FixShardReplication] fixes the first problem it meets: the tablets
    of the links before it were all found and not scrapped, and
    - when the tablet of a link is missing or scrapped, the record of
      that tablet is removed, in the cell of the tablet, and nothing
      after it is looked at;
    - when the lookup of a tablet fails with another error, that error is
      returned and nothing is removed;
    - when every tablet is found and none is scrapped, [nil] is returned
      and nothing is removed. *)
Theorem FixShardReplication_first_problem
    (cell keyspace shard : string) (st : state)
    (sri : ShardReplication TabletAlias) :
  GetShardReplication ts cell keyspace shard (topo st) = (Ok sri, w1) →
  let looked_up before :=
    topo_calls st ++ CallGetShardReplication cell keyspace shard
      :: (CallGetTablet ∘ TabletAlias_ <$> before) in
  let healthy before :=
    ∀ l, l ∈ before → ∃ ti, tablet (TabletAlias_ l) = Ok ti ∧ is_TYPE_SCRAP ts ti = false in
  (∀ before rl after,
     ReplicationLinks sri = before ++ rl :: after → healthy before →
     (tablet (TabletAlias_ rl) = Err (ErrNoNode ts) ∨
      ∃ ti, tablet (TabletAlias_ rl) = Ok ti ∧ is_TYPE_SCRAP ts ti = true) →
     FixShardReplication ts cell keyspace shard st
     = RemoveShardReplicationRecord ts keyspace shard (TabletAlias_ rl)
         {| topo := w1; topo_calls := looked_up (before ++ [rl]) |}) ∧
  (∀ before rl after err,
     ReplicationLinks sri = before ++ rl :: after → healthy before →
     tablet (TabletAlias_ rl) = Err err → err ≠ ErrNoNode ts →
     FixShardReplication ts cell keyspace shard st
     = (Some err, {| topo := w1; topo_calls := looked_up (before ++ [rl]) |})) ∧
  (healthy (ReplicationLinks sri) →
     FixShardReplication ts cell keyspace shard st
     = (None, {| topo := w1; topo_calls := looked_up (ReplicationLinks sri) |})).
Proof.
  intros Hget. simpl.
  assert (FixShardReplication ts cell keyspace shard st
          = FixShardReplication_range ts keyspace shard (ReplicationLinks sri)
              {| topo := w1;
                 topo_calls := topo_calls st ++ [CallGetShardReplication cell keyspace shard] |})
    as ->.
  { unfold FixShardReplication, topo_call. by rewrite Hget. }
  split_and!.
  - intros before rl after -> Hbefore Hrl.
    rewrite FixShardReplication_range_skip by done. simpl.
    unfold topo_call at 1. simpl. rewrite GetTablet_tablet.
    rewrite fmap_app, <- !app_assoc. simpl.
    destruct Hrl as [->|(ti & -> & ->)]; [by rewrite decide_True|done].
  - intros before rl after err -> Hbefore Hrl Hne.
    rewrite FixShardReplication_range_skip by done. simpl.
    unfold topo_call at 1. simpl. rewrite GetTablet_tablet, Hrl.
    rewrite decide_False by done. by rewrite fmap_app, <- !app_assoc.
  - intros Hall.
    rewrite <- (app_nil_r (ReplicationLinks sri)) at 1.
    rewrite FixShardReplication_range_skip by done. simpl.
    by rewrite <- app_assoc.
Qed.

End pure_lookup.

End topo_server_facts.

(** * More about the loops of the Resolver *)

Section resolver_more_facts.
Context {W QueryResult QueryResultList BoundQuery TabletType Session
         EntityKeyspaceIdMap SendReply : Type}.
Variable env : Collaborators W QueryResult QueryResultList BoundQuery TabletType
                 Session EntityKeyspaceIdMap SendReply.

Lemma resolve_entity_ids_Err query (st : State W) err w1 :
  mapEntityIdsToShards env (Keyspace query) (EntityKeyspaceIdMap_ query) (TabletType_ query)
    (world st) = (Err err, w1) →
  resolve_entity_ids env query st
  = (Err err,
     {| world := w1;
        calls := calls st ++ [CallMapToShards (Keyspace query) (Some err)] |}).
Proof. intros H. unfold resolve_entity_ids, bind, call. by rewrite H. Qed.

(** An error of the first resolution is returned as it is, and nothing is
    dispatched: by [Execute], [ExecuteBatch], [ExecuteEntityIds] and
    [StreamExecute] alike. *)
Theorem resolution_error_returned :
  (∀ fuel sql bindVars keyspace tabletType session mapToShards (st : State W) err w1,
     mapToShards keyspace (world st) = (Err err, w1) →
     Execute env fuel sql bindVars keyspace tabletType session mapToShards st
     = (Some (Err err),
        {| world := w1; calls := calls st ++ [CallMapToShards keyspace (Some err)] |})) ∧
  (∀ fuel queries keyspace tabletType session mapToShards (st : State W) err w1,
     mapToShards keyspace (world st) = (Err err, w1) →
     ExecuteBatch env fuel queries keyspace tabletType session mapToShards st
     = (Some (Err err),
        {| world := w1; calls := calls st ++ [CallMapToShards keyspace (Some err)] |})) ∧
  (∀ fuel query (st : State W) err w1,
     mapEntityIdsToShards env (Keyspace query) (EntityKeyspaceIdMap_ query)
       (TabletType_ query) (world st) = (Err err, w1) →
     ExecuteEntityIds env fuel query st
     = (Some (Err err),
        {| world := w1;
           calls := calls st ++ [CallMapToShards (Keyspace query) (Some err)] |})) ∧
  (∀ sql bindVars keyspace tabletType session mapToShards sendReply (st : State W) err w1,
     mapToShards keyspace (world st) = (Err err, w1) →
     StreamExecute env sql bindVars keyspace tabletType session mapToShards sendReply st
     = (Some err,
        {| world := w1; calls := calls st ++ [CallMapToShards keyspace (Some err)] |})).
Proof.
  split_and!.
  - intros * H. unfold Execute, resolve_and_retry, bind, call. by rewrite H.
  - intros * H. unfold ExecuteBatch, resolve_and_retry, bind, call. by rewrite H.
  - intros * H. unfold ExecuteEntityIds. unfold bind at 1.
    by rewrite (resolve_entity_ids_Err _ _ _ _ H).
  - intros * H. unfold StreamExecute, bind, call. by rewrite H.
Qed.

Lemma is_retry_false_iff err :
  is_retry env err = false ↔ ∀ msg, err ≠ ShardConnError (ERR_RETRY env) msg.
Proof.
  destruct err as [code msg|msg]; simpl.
  - rewrite Z.eqb_neq. split.
    + intros Hne msg' [= ? _]. done.
    + intros Hall ->. by destruct (Hall msg).
  - split; [by intros _ msg'|done].
Qed.

Lemma ExecuteEntityIds_turn_Ok query shards sqls bindVars (st : State W) qr w1 :
  scatterConn_ExecuteEntityIds env shards sqls bindVars (Keyspace query)
    (TabletType_ query) (Session_ query) (world st) = (Ok qr, w1) →
  ExecuteEntityIds_turn env query (shards, sqls, bindVars) st
  = (Return (Ok qr),
     {| world := w1;
        calls := calls st ++ [CallDispatch (Keyspace query) shards None] |}).
Proof. intros H. unfold ExecuteEntityIds_turn, bind, call. by rewrite H. Qed.

Lemma ExecuteEntityIds_turn_not_retry query shards sqls bindVars (st : State W) err w1 :
  scatterConn_ExecuteEntityIds env shards sqls bindVars (Keyspace query)
    (TabletType_ query) (Session_ query) (world st) = (Err err, w1) →
  is_retry env err = false →
  ExecuteEntityIds_turn env query (shards, sqls, bindVars) st
  = (Return (Err err),
     {| world := w1;
        calls := calls st ++ [CallDispatch (Keyspace query) shards (Some err)] |}).
Proof. intros H Hr. unfold ExecuteEntityIds_turn, bind, call. by rewrite H, Hr. Qed.

(** A dispatch that succeeds, or that fails with anything but a
    [ShardConnError] of code RETRY, ends the loop at once: its outcome is
    returned and the topology is not asked again.  This holds at every
    turn of [Execute], [ExecuteBatch] and [ExecuteEntityIds]. *)
Theorem dispatch_outcome_returned :
  (∀ sql bindVars tabletType session mapToShards keyspace shards (st : State W) r w1,
     scatterConn_Execute env sql bindVars keyspace shards tabletType session (world st)
       = (r, w1) →
     (∀ msg, r ≠ Err (ShardConnError (ERR_RETRY env) msg)) →
     Execute_turn env sql bindVars tabletType session mapToShards keyspace shards st
     = (Return r,
        {| world := w1;
           calls := calls st ++ [CallDispatch keyspace shards (err_of r)] |})) ∧
  (∀ queries tabletType session mapToShards keyspace shards (st : State W) r w1,
     scatterConn_ExecuteBatch env queries keyspace shards tabletType session (world st)
       = (r, w1) →
     (∀ msg, r ≠ Err (ShardConnError (ERR_RETRY env) msg)) →
     ExecuteBatch_turn env queries tabletType session mapToShards keyspace shards st
     = (Return r,
        {| world := w1;
           calls := calls st ++ [CallDispatch keyspace shards (err_of r)] |})) ∧
  (∀ query shards sqls bindVars (st : State W) r w1,
     scatterConn_ExecuteEntityIds env shards sqls bindVars (Keyspace query)
       (TabletType_ query) (Session_ query) (world st) = (r, w1) →
     (∀ msg, r ≠ Err (ShardConnError (ERR_RETRY env) msg)) →
     ExecuteEntityIds_turn env query (shards, sqls, bindVars) st
     = (Return r,
        {| world := w1;
           calls := calls st ++ [CallDispatch (Keyspace query) shards (err_of r)] |})).
Proof.
  assert (∀ A (r : result A) err,
            r = Err err → (∀ msg, r ≠ Err (ShardConnError (ERR_RETRY env) msg)) →
            is_retry env err = false) as Hnr.
  { intros A r err -> Hall. apply is_retry_false_iff. intros msg ->. by destruct (Hall msg). }
  split_and!.
  - intros * Hd Hall. unfold Execute_turn. destruct r as [qr|err].
    + by rewrite (retry_turn_Ok env _ _ _ _ _ _ _ _ Hd).
    + by rewrite (retry_turn_not_retry env _ _ _ _ _ _ _ _ Hd (Hnr _ _ _ eq_refl Hall)).
  - intros * Hd Hall. unfold ExecuteBatch_turn. destruct r as [qr|err].
    + by rewrite (retry_turn_Ok env _ _ _ _ _ _ _ _ Hd).
    + by rewrite (retry_turn_not_retry env _ _ _ _ _ _ _ _ Hd (Hnr _ _ _ eq_refl Hall)).
  - intros * Hd Hall. destruct r as [qr|err].
    + by rewrite (ExecuteEntityIds_turn_Ok _ _ _ _ _ _ _ Hd).
    + by rewrite (ExecuteEntityIds_turn_not_retry _ _ _ _ _ _ _ Hd (Hnr _ _ _ eq_refl Hall)).
Qed.

(** A turn of [ExecuteEntityIds] in which the dispatch fails with a
    retryable error. *)
Lemma ExecuteEntityIds_turn_retry query shards sqls bindVars (st : State W)
    err w1 alias w2 r st3 :
  scatterConn_ExecuteEntityIds env shards sqls bindVars (Keyspace query)
    (TabletType_ query) (Session_ query) (world st) = (Err err, w1) →
  is_retry env err = true →
  getKeyspaceAlias env (Keyspace query) (TabletType_ query) w1 = (alias, w2) →
  resolve_entity_ids env (set_Keyspace query (check_keyspace (Keyspace query) alias).1)
    {| world := w2;
       calls := calls st ++
         [CallDispatch (Keyspace query) shards (Some err);
          CallGetKeyspaceAlias (Keyspace query) (err_of alias)] |} = (r, st3) →
  ExecuteEntityIds_turn env query (shards, sqls, bindVars) st =
  (match r with
   | Err err' => Return (Err err')
   | Ok (newShards, newSqls, newBindVars) =>
       if (check_keyspace (Keyspace query) alias).2 || negb (bool_decide (newShards ≡ₚ shards))
       then Continue
              (set_Keyspace query (check_keyspace (Keyspace query) alias).1,
               if bool_decide (newShards ≡ₚ shards)
               then ((StrsEquals newShards shards).2, sqls, bindVars)
               else ((StrsEquals newShards shards).1.2, newSqls, newBindVars))
       else Return (Err err)
   end, st3).
Proof.
  intros Hd Hr Ha Hres. unfold ExecuteEntityIds_turn.
  unfold bind at 1, call at 1. rewrite Hd, Hr.
  unfold bind at 1, call at 1. simpl world. rewrite Ha.
  destruct (check_keyspace (Keyspace query) alias) as [keyspace' resharding].
  simpl in Hres. unfold bind at 1.
  simpl calls. rewrite <- app_assoc. simpl app. rewrite Hres.
  destruct r as [[[newShards newSqls] newBindVars]|err']; [|done].
  rewrite <- StrsEquals_result.
  destruct (StrsEquals newShards shards) as [[equal a] b]. simpl.
  destruct equal; simpl; [|by rewrite orb_true_r].
  rewrite orb_false_r. by destruct resharding.
Qed.

(** An error of the resolution that follows a RETRY is returned, in
    place of the RETRY error, and nothing more is dispatched. *)
Theorem reresolution_error_returned :
  (∀ sql bindVars tabletType session mapToShards keyspace shards
     (st : State W) err w1 alias w2 err' w3,
     scatterConn_Execute env sql bindVars keyspace shards tabletType session (world st)
       = (Err err, w1) →
     is_retry env err = true →
     getKeyspaceAlias env keyspace tabletType w1 = (alias, w2) →
     mapToShards (check_keyspace keyspace alias).1 w2 = (Err err', w3) →
     Execute_turn env sql bindVars tabletType session mapToShards keyspace shards st
     = (Return (Err err'),
        {| world := w3;
           calls := calls st ++
             [CallDispatch keyspace shards (Some err);
              CallGetKeyspaceAlias keyspace (err_of alias);
              CallMapToShards (check_keyspace keyspace alias).1 (Some err')] |})) ∧
  (∀ queries tabletType session mapToShards keyspace shards
     (st : State W) err w1 alias w2 err' w3,
     scatterConn_ExecuteBatch env queries keyspace shards tabletType session (world st)
       = (Err err, w1) →
     is_retry env err = true →
     getKeyspaceAlias env keyspace tabletType w1 = (alias, w2) →
     mapToShards (check_keyspace keyspace alias).1 w2 = (Err err', w3) →
     ExecuteBatch_turn env queries tabletType session mapToShards keyspace shards st
     = (Return (Err err'),
        {| world := w3;
           calls := calls st ++
             [CallDispatch keyspace shards (Some err);
              CallGetKeyspaceAlias keyspace (err_of alias);
              CallMapToShards (check_keyspace keyspace alias).1 (Some err')] |})) ∧
  (∀ query shards sqls bindVars (st : State W) err w1 alias w2 err' w3,
     scatterConn_ExecuteEntityIds env shards sqls bindVars (Keyspace query)
       (TabletType_ query) (Session_ query) (world st) = (Err err, w1) →
     is_retry env err = true →
     getKeyspaceAlias env (Keyspace query) (TabletType_ query) w1 = (alias, w2) →
     mapEntityIdsToShards env (check_keyspace (Keyspace query) alias).1
       (EntityKeyspaceIdMap_ query) (TabletType_ query) w2 = (Err err', w3) →
     ExecuteEntityIds_turn env query (shards, sqls, bindVars) st
     = (Return (Err err'),
        {| world := w3;
           calls := calls st ++
             [CallDispatch (Keyspace query) shards (Some err);
              CallGetKeyspaceAlias (Keyspace query) (err_of alias);
              CallMapToShards (check_keyspace (Keyspace query) alias).1 (Some err')] |})).
Proof.
  split_and!.
  - intros * Hd Hr Ha Hm. unfold Execute_turn.
    by rewrite (retry_turn_retry env _ _ _ _ _ _ _ _ _ _ _ _ Hd Hr Ha Hm).
  - intros * Hd Hr Ha Hm. unfold ExecuteBatch_turn.
    by rewrite (retry_turn_retry env _ _ _ _ _ _ _ _ _ _ _ _ Hd Hr Ha Hm).
  - intros * Hd Hr Ha Hm.
    erewrite ExecuteEntityIds_turn_retry; [|done..|].
    2:{ apply resolve_entity_ids_Err. simpl. exact Hm. }
    simpl. by rewrite <- app_assoc.
Qed.

(** The loop goes round only on a change it has seen: a turn that ends
    in [continue] has got another keyspace, or shards that are not the
    ones it had, as a multiset. *)
Lemma retry_turn_Continue {A} (dispatch : string → list string → W → result A * W)
    tabletType mapToShards keyspace shards (st st' : State W) keyspace' shards' :
  retry_turn env dispatch tabletType mapToShards keyspace shards st
    = (Continue (keyspace', shards'), st') →
  keyspace' ≠ keyspace ∨ ¬ shards' ≡ₚ shards.
Proof.
  destruct (dispatch keyspace shards (world st)) as [[qr|err] w1] eqn:Hd.
  - by rewrite (retry_turn_Ok env _ _ _ _ _ _ _ _ Hd).
  - destruct (is_retry env err) eqn:Hr;
      [|by rewrite (retry_turn_not_retry env _ _ _ _ _ _ _ _ Hd Hr)].
    destruct (getKeyspaceAlias env keyspace tabletType w1) as [alias w2] eqn:Ha.
    destruct (mapToShards (check_keyspace keyspace alias).1 w2) as [r w3] eqn:Hm.
    rewrite (retry_turn_retry env _ _ _ _ _ _ _ _ _ _ _ _ Hd Hr Ha Hm).
    destruct r as [newShards|err']; [|done].
    destruct (check_shards _ _ _).2 eqn:Hres; [|done].
    intros [= <- <- _].
    rewrite check_shards_resharding, check_keyspace_changed in Hres.
    apply orb_true_iff in Hres as [Hk%bool_decide_eq_true|Hs%negb_true_iff]; [by left|].
    right. apply bool_decide_eq_false in Hs. by rewrite check_shards_Permutation.
Qed.

Theorem retry_only_on_change :
  (∀ sql bindVars tabletType session mapToShards keyspace shards
     (st st' : State W) keyspace' shards',
     Execute_turn env sql bindVars tabletType session mapToShards keyspace shards st
       = (Continue (keyspace', shards'), st') →
     keyspace' ≠ keyspace ∨ ¬ shards' ≡ₚ shards) ∧
  (∀ queries tabletType session mapToShards keyspace shards
     (st st' : State W) keyspace' shards',
     ExecuteBatch_turn env queries tabletType session mapToShards keyspace shards st
       = (Continue (keyspace', shards'), st') →
     keyspace' ≠ keyspace ∨ ¬ shards' ≡ₚ shards) ∧
  (∀ query shards sqls bindVars (st st' : State W) query' shards' sqls' bindVars',
     ExecuteEntityIds_turn env query (shards, sqls, bindVars) st
       = (Continue (query', (shards', sqls', bindVars')), st') →
     Keyspace query' ≠ Keyspace query ∨ ¬ shards' ≡ₚ shards).
Proof.
  split_and!.
  - intros *. apply retry_turn_Continue.
  - intros *. apply retry_turn_Continue.
  - intros *.
    destruct (scatterConn_ExecuteEntityIds env shards sqls bindVars (Keyspace query)
                (TabletType_ query) (Session_ query) (world st)) as [[qr|err] w1] eqn:Hd.
    + by rewrite (ExecuteEntityIds_turn_Ok _ _ _ _ _ _ _ Hd).
    + destruct (is_retry env err) eqn:Hr;
        [|by rewrite (ExecuteEntityIds_turn_not_retry _ _ _ _ _ _ _ Hd Hr)].
      destruct (getKeyspaceAlias env (Keyspace query) (TabletType_ query) w1)
        as [alias w2] eqn:Ha.
      destruct (resolve_entity_ids env
                  (set_Keyspace query (check_keyspace (Keyspace query) alias).1)
                  {| world := w2;
                     calls := calls st ++
                       [CallDispatch (Keyspace query) shards (Some err);
                        CallGetKeyspaceAlias (Keyspace query) (err_of alias)] |})
        as [r st3] eqn:Hres.
      rewrite (ExecuteEntityIds_turn_retry _ _ _ _ _ _ _ _ _ _ _ Hd Hr Ha Hres).
      destruct r as [[[newShards newSqls] newBindVars]|err']; [|done].
      destruct (_ || _) eqn:Hch; [|done].
      rewrite check_keyspace_changed in Hch.
      pose proof (StrsEquals_slices newShards shards) as [Hsa Hsb].
      destruct (bool_decide (newShards ≡ₚ shards)) eqn:Hp.
      * rewrite orb_false_r in Hch. apply bool_decide_eq_true in Hch.
        intros [= <- _ _ _ _]. by left.
      * apply bool_decide_eq_false in Hp. intros [= _ <- _ _ _]. right.
        rewrite Hsa. case_decide; [by rewrite sort_Strings_Permutation|done].
Qed.

(** RETRY without a change of the topology is returned by the siblings
    of [Execute] too. *)
Theorem retry_without_resharding_returned :
  (∀ queries tabletType session mapToShards keyspace shards newShards
     (st : State W) err w1 w2 w3,
     scatterConn_ExecuteBatch env queries keyspace shards tabletType session (world st)
       = (Err err, w1) →
     is_retry env err = true →
     getKeyspaceAlias env keyspace tabletType w1 = (Ok keyspace, w2) →
     mapToShards keyspace w2 = (Ok newShards, w3) →
     newShards ≡ₚ shards →
     ExecuteBatch_turn env queries tabletType session mapToShards keyspace shards st
     = (Return (Err err),
        {| world := w3;
           calls := calls st ++
             [CallDispatch keyspace shards (Some err);
              CallGetKeyspaceAlias keyspace None;
              CallMapToShards keyspace None] |})) ∧
  (∀ query shards sqls bindVars (st st3 : State W) err w1 w2
     newShards newSqls newBindVars,
     scatterConn_ExecuteEntityIds env shards sqls bindVars (Keyspace query)
       (TabletType_ query) (Session_ query) (world st) = (Err err, w1) →
     is_retry env err = true →
     getKeyspaceAlias env (Keyspace query) (TabletType_ query) w1
       = (Ok (Keyspace query), w2) →
     resolve_entity_ids env query
       {| world := w2;
          calls := calls st ++
            [CallDispatch (Keyspace query) shards (Some err);
             CallGetKeyspaceAlias (Keyspace query) None] |}
       = (Ok (newShards, newSqls, newBindVars), st3) →
     newShards ≡ₚ shards →
     ExecuteEntityIds_turn env query (shards, sqls, bindVars) st
     = (Return (Err err), st3)).
Proof.
  split.
  - intros * Hd Hr Ha Hm Hp. unfold ExecuteBatch_turn.
    rewrite (retry_turn_retry env
      (λ keyspace shards,
         scatterConn_ExecuteBatch env queries keyspace shards tabletType session)
      tabletType mapToShards keyspace shards st err w1 (Ok keyspace) w2 (Ok newShards) w3
      Hd Hr Ha) by (by rewrite check_keyspace_Ok).
    rewrite check_keyspace_Ok. simpl. rewrite check_shards_resharding.
    rewrite (bool_decide_true (newShards ≡ₚ shards)) by done.
    by rewrite (bool_decide_false (keyspace ≠ keyspace)) by (intros ?; done).
  - intros * Hd Hr Ha Hres Hp.
    erewrite ExecuteEntityIds_turn_retry; [|done..|].
    2:{ rewrite check_keyspace_Ok. simpl. rewrite set_Keyspace_same. exact Hres. }
    rewrite check_keyspace_Ok. simpl.
    rewrite (bool_decide_true (newShards ≡ₚ shards)) by done.
    by rewrite (bool_decide_false (_ ≠ _)) by (intros ?; done).
Qed.

(** [StreamExecute] refuses every resolution that is not of one shard,
    none included, with the same message, and dispatches nothing. *)
Theorem StreamExecute_not_one_shard
    (sql : string) (bindVars : gmap string BindValue) (keyspace : string)
    (tabletType : TabletType) (session : Session)
    (mapToShards : string → W → result (list string) * W) (sendReply : SendReply)
    (st : State W) (shards : list string) (w1 : W) :
  mapToShards keyspace (world st) = (Ok shards, w1) →
  length shards ≠ 1%nat →
  StreamExecute env sql bindVars keyspace tabletType session mapToShards sendReply st
  = (Some (errorString "Resolved to more than one shard"),
     {| world := w1; calls := calls st ++ [CallMapToShards keyspace None] |}).
Proof.
  intros Hm Hlen. unfold StreamExecute, bind, call. rewrite Hm. simpl.
  by rewrite decide_True.
Qed.

(** The statements and the bind variables [ExecuteEntityIds] dispatches
    are always those of the shards it dispatches to: the routing is
    consistent after every resolution, and a turn that goes round leaves
    it consistent, whether [StrsEquals] has sorted the shards or not. *)
Lemma buildEntityIds_routing_ok entries qSql entityColName qBindVars :
  routing_ok (buildEntityIds entries qSql entityColName qBindVars).
Proof.
  rewrite buildEntityIds_fold. unfold routing_ok. simpl.
  rewrite !dom_fmap_L, dom_list_to_map_L, fmap_reverse.
  split; by rewrite reverse_Permutation.
Qed.

Lemma resolve_entity_ids_routing_ok query (st st' : State W) routing :
  resolve_entity_ids env query st = (Ok routing, st') → routing_ok routing.
Proof.
  unfold resolve_entity_ids, bind, call, range, ret.
  destruct (mapEntityIdsToShards env _ _ _ (world st)) as [[shardMap|err] w1]; [|done].
  simpl. destruct (range_shardMap env shardMap w1) as [entries w2].
  intros H. simplify_eq. apply buildEntityIds_routing_ok.
Qed.

Theorem ExecuteEntityIds_routing_consistent :
  (∀ query (st st' : State W) routing,
     resolve_entity_ids env query st = (Ok routing, st') → routing_ok routing) ∧
  (∀ query routing (st st' : State W) query' routing',
     routing_ok routing →
     ExecuteEntityIds_turn env query routing st = (Continue (query', routing'), st') →
     routing_ok routing').
Proof.
  split; [apply resolve_entity_ids_routing_ok|].
  intros query [[shards sqls] bindVars] st st' query' routing' [Hs Hb].
  simpl in Hs, Hb.
  destruct (scatterConn_ExecuteEntityIds env shards sqls bindVars (Keyspace query)
              (TabletType_ query) (Session_ query) (world st)) as [[qr|err] w1] eqn:Hd.
  - by rewrite (ExecuteEntityIds_turn_Ok _ _ _ _ _ _ _ Hd).
  - destruct (is_retry env err) eqn:Hr;
      [|by rewrite (ExecuteEntityIds_turn_not_retry _ _ _ _ _ _ _ Hd Hr)].
    destruct (getKeyspaceAlias env (Keyspace query) (TabletType_ query) w1)
      as [alias w2] eqn:Ha.
    destruct (resolve_entity_ids env
                (set_Keyspace query (check_keyspace (Keyspace query) alias).1)
                {| world := w2;
                   calls := calls st ++
                     [CallDispatch (Keyspace query) shards (Some err);
                      CallGetKeyspaceAlias (Keyspace query) (err_of alias)] |})
      as [r st3] eqn:Hres.
    rewrite (ExecuteEntityIds_turn_retry _ _ _ _ _ _ _ _ _ _ _ Hd Hr Ha Hres).
    destruct r as [[[newShards newSqls] newBindVars]|err']; [|done].
    apply resolve_entity_ids_routing_ok in Hres as [Hns Hnb]. simpl in Hns, Hnb.
    destruct (_ || _); [|done].
    pose proof (StrsEquals_slices newShards shards) as [Hsa Hsb].
    intros [= _ <-]. unfold routing_ok.
    destruct (bool_decide (newShards ≡ₚ shards)); simpl.
    + rewrite Hsb. case_decide; [|done]. by rewrite sort_Strings_Permutation.
    + rewrite Hsa. case_decide; [|done]. by rewrite sort_Strings_Permutation.
Qed.

(** The loop of [Execute] has no bound of its own: as long as every
    dispatch fails with a retryable error and every resolution shows a
    change, it goes round, one dispatch a turn. *)
Theorem Execute_loop_unbounded
    (Inv : W → string → list string → Prop)
    (sql : string) (bindVars : gmap string BindValue) (tabletType : TabletType)
    (session : Session) (mapToShards : string → W → result (list string) * W) :
  (∀ w keyspace shards, Inv w keyspace shards →
     ∃ err w1 alias w2 newShards w3,
       scatterConn_Execute env sql bindVars keyspace shards tabletType session w
         = (Err err, w1) ∧
       is_retry env err = true ∧
       getKeyspaceAlias env keyspace tabletType w1 = (alias, w2) ∧
       mapToShards (check_keyspace keyspace alias).1 w2 = (Ok newShards, w3) ∧
       ((check_keyspace keyspace alias).1 ≠ keyspace ∨ ¬ newShards ≡ₚ shards) ∧
       Inv w3 (check_keyspace keyspace alias).1
         (check_shards newShards shards (check_keyspace keyspace alias).2).1) →
  ∀ fuel keyspace shards (st : State W),
    Inv (world st) keyspace shards →
    (Execute_loop env fuel sql bindVars tabletType session mapToShards keyspace shards st).1
      = None ∧
    length (filter is_dispatch
      (calls (Execute_loop env fuel sql bindVars tabletType session mapToShards
                keyspace shards st).2))
    = (length (filter is_dispatch (calls st)) + fuel)%nat.
Proof.
  intros Hstep fuel. unfold Execute_loop.
  induction fuel as [|fuel IH]; intros keyspace shards st Hinv; simpl.
  - split; [done|lia].
  - destruct (Hstep _ _ _ Hinv)
      as (err & w1 & alias & w2 & newShards & w3 & Hd & Hr & Ha & Hm & Hch & Hinv').
    assert ((check_shards newShards shards (check_keyspace keyspace alias).2).2 = true)
      as Hres.
    { rewrite check_shards_resharding, check_keyspace_changed.
      destruct Hch as [Hk|Hs].
      - by rewrite (bool_decide_true (_ ≠ _)).
      - rewrite (bool_decide_false (_ ≡ₚ _)) by done. apply orb_true_r. }
    set (dispatch := λ keyspace shards,
           scatterConn_Execute env sql bindVars keyspace shards tabletType session) in *.
    set (st1 := {| world := w3;
                   calls := calls st ++
                     [CallDispatch keyspace shards (Some err);
                      CallGetKeyspaceAlias keyspace (err_of alias);
                      CallMapToShards (check_keyspace keyspace alias).1 None] |}).
    assert (bind (retry_turn env dispatch tabletType mapToShards keyspace shards)
              (λ t, match t with
                    | Continue (keyspace, shards) =>
                        retry_loop env dispatch tabletType mapToShards fuel keyspace shards
                    | Return r => ret (Some r)
                    end) st
            = retry_loop env dispatch tabletType mapToShards fuel
                (check_keyspace keyspace alias).1
                (check_shards newShards shards (check_keyspace keyspace alias).2).1 st1)
      as ->.
    { unfold bind.
      rewrite (retry_turn_retry env dispatch tabletType mapToShards keyspace shards st
                 err w1 alias w2 (Ok newShards) w3 Hd Hr Ha Hm).
      by rewrite Hres. }
    destruct (IH _ _ st1 Hinv') as [IH1 IH2].
    split; [done|]. rewrite IH2. unfold st1. simpl.
    rewrite filter_app, length_app. simpl. lia.
Qed.

End resolver_more_facts.

(** * More about [insertSqlClause] *)

Section insertSqlClause_more.





Lemma length_where_prefix q :
  where_prefix q = " where " ∧ String.length (where_prefix q) = 7%nat ∨
  where_prefix q = " and " ∧ String.length (where_prefix q) = 5%nat.
Proof. unfold where_prefix. destruct (Contains _ _); auto. Qed.





End insertSqlClause_more.

(** * More about [buildEntityIds] and [StrsEquals] *)

Section buildEntityIds_more.




End buildEntityIds_more.

Section StrsEquals_more.

Lemma sort_Strings_idemp a : sort_Strings (sort_Strings a) = sort_Strings a.
Proof. apply sort_Strings_eq, sort_Strings_Permutation. Qed.

(** [StrsEquals] is symmetric, it keeps the elements of both slices, and
    a second call on the slices it has left gives the same answer and
    leaves them as they are. *)
Theorem StrsEquals_symmetric_stable (a b : list string) :
  StrsEquals b a = ((StrsEquals a b).1.1, (StrsEquals a b).2, (StrsEquals a b).1.2) ∧
  StrsEquals (StrsEquals a b).1.2 (StrsEquals a b).2 = StrsEquals a b ∧
  (StrsEquals a b).1.2 ≡ₚ a ∧ (StrsEquals a b).2 ≡ₚ b.
Proof.
  assert (∀ x y, StrsEquals x y = ((StrsEquals x y).1.1, (StrsEquals x y).1.2, (StrsEquals x y).2))
    as Heta by (by intros x y; destruct (StrsEquals x y) as [[? ?] ?]).
  pose proof (StrsEquals_slices a b) as [Ha Hb].
  pose proof (StrsEquals_slices b a) as [Hb' Ha'].
  assert ((StrsEquals a b).1.2 ≡ₚ a ∧ (StrsEquals a b).2 ≡ₚ b) as [Hpa Hpb].
  { rewrite Ha, Hb. destruct (decide (length a = length b)); split; try done;
      apply sort_Strings_Permutation. }
  split_and!; [| |done|done].
  - rewrite (Heta b a), Hb', Ha', Ha, Hb, !StrsEquals_result.
    rewrite (bool_decide_ext (b ≡ₚ a) (a ≡ₚ b)) by (split; by intros ->).
    destruct (decide (length a = length b)), (decide (length b = length a));
      try done; congruence.
  - rewrite (Heta (StrsEquals a b).1.2), (Heta a b).
    pose proof (StrsEquals_slices (StrsEquals a b).1.2 (StrsEquals a b).2) as [Ha2 Hb2].
    simpl. rewrite Ha2, Hb2, !StrsEquals_result.
    rewrite (bool_decide_ext (_ ≡ₚ _) (a ≡ₚ b)) by (by rewrite Hpa, Hpb).
    rewrite Ha, Hb.
    destruct (decide (length a = length b)) as [Hl|Hl].
    + rewrite !decide_True by (by rewrite !sort_Strings_length).
      by rewrite !sort_Strings_idemp.
    + by rewrite !decide_False by done.
Qed.

End StrsEquals_more.

(** * Scenarios for the properties above *)

(** The server in memory stores the objects. *)
Lemma MemServer_stores : stores MemServer.ts MemServer.read.
Proof.
  split; unfold MemServer.read; simpl; unfold MemServer.update, MemServer.create.
  - intros cell keyspace shard f w Hr. by rewrite Hr.
  - intros cell keyspace shard f w sr sr' Hr Hf. rewrite Hr, Hf.
    eexists. split; [done|]. simpl. split; [by rewrite lookup_insert_eq|].
    intros k Hk. by rewrite lookup_insert_ne.
  - intros cell keyspace shard sr w Hr. rewrite Hr.
    eexists. split; [done|]. simpl. split; [by rewrite lookup_insert_eq|].
    intros k Hk. by rewrite lookup_insert_ne.
Qed.

(** In the flapping world every turn of [Execute] goes round. *)
Lemma Flapping_step (w : nat) (keyspace : string) (shards : list string) :
  shards = Flapping.shards_at w →
  ∃ err w1 alias w2 newShards w3,
    scatterConn_Execute Flapping.env "select 1" ∅ keyspace shards () () w = (Err err, w1) ∧
    is_retry Flapping.env err = true ∧
    getKeyspaceAlias Flapping.env keyspace () w1 = (alias, w2) ∧
    Flapping.mapToShards (check_keyspace keyspace alias).1 w2 = (Ok newShards, w3) ∧
    ((check_keyspace keyspace alias).1 ≠ keyspace ∨ ¬ newShards ≡ₚ shards) ∧
    (check_shards newShards shards (check_keyspace keyspace alias).2).1
    = Flapping.shards_at w3.
Proof.
  intros ->.
  exists Scripted.retry_error, (S w), (Ok keyspace), (S w), (Flapping.shards_at (S w)), (S w).
  split_and!; try done.
  - right. unfold Flapping.shards_at. rewrite Nat.even_succ, <- Nat.negb_even.
    destruct (Nat.even w); simpl; by intros [=]%Permutation_singleton_inj.
  - rewrite check_keyspace_Ok. unfold Flapping.shards_at.
    rewrite Nat.even_succ, <- Nat.negb_even. by destruct (Nat.even w).
Qed.

(** A second link of tablet 2 is dropped and its first link is changed
    where it stands. *)
Lemma AddShardReplicationRecord_f_in_place_witness :
  ReplicationLinks
    (AddShardReplicationRecord_f (λ a : nat, bool_decide (a = 0%nat)) 2%nat 9%nat
       {| ReplicationLinks :=
            [{| TabletAlias_ := 1%nat; Parent := 7%nat |};
             {| TabletAlias_ := 2%nat; Parent := 7%nat |};
             {| TabletAlias_ := 3%nat; Parent := 7%nat |};
             {| TabletAlias_ := 2%nat; Parent := 8%nat |}] |})
  = [{| TabletAlias_ := 1%nat; Parent := 7%nat |};
     {| TabletAlias_ := 2%nat; Parent := 9%nat |};
     {| TabletAlias_ := 3%nat; Parent := 7%nat |}].
Proof.
  refine (proj1 (AddShardReplicationRecord_f_in_place
                   (λ a : nat, bool_decide (a = 0%nat)) 2%nat 9%nat
                   {| ReplicationLinks :=
                        [{| TabletAlias_ := 1%nat; Parent := 7%nat |};
                         {| TabletAlias_ := 2%nat; Parent := 7%nat |};
                         {| TabletAlias_ := 3%nat; Parent := 7%nat |};
                         {| TabletAlias_ := 2%nat; Parent := 8%nat |}] |} eq_refl)
            [{| TabletAlias_ := 1%nat; Parent := 7%nat |}]
            {| TabletAlias_ := 2%nat; Parent := 7%nat |}
            [{| TabletAlias_ := 3%nat; Parent := 7%nat |};
             {| TabletAlias_ := 2%nat; Parent := 8%nat |}] eq_refl eq_refl _).
  intros l' Hl. apply list_elem_of_singleton in Hl. by rewrite Hl.
Defined.

Lemma AddShardReplicationRecord_f_zero_parent_witness :
  AddShardReplicationRecord_f (λ a : nat, bool_decide (a = 0%nat)) 2%nat 0%nat
    {| ReplicationLinks :=
         [{| TabletAlias_ := 1%nat; Parent := 7%nat |};
          {| TabletAlias_ := 2%nat; Parent := 7%nat |}] |}
  = RemoveShardReplicationRecord_f 2%nat
      {| ReplicationLinks :=
           [{| TabletAlias_ := 1%nat; Parent := 7%nat |};
            {| TabletAlias_ := 2%nat; Parent := 7%nat |}] |}.
Proof.
  apply (AddShardReplicationRecord_f_zero_parent (λ a : nat, bool_decide (a = 0%nat))).
  reflexivity.
Defined.

Lemma one_link_per_tablet_kept_witness :
  one_link_per_tablet
    (ReplicationLinks
       (AddShardReplicationRecord_f (λ a : nat, bool_decide (a = 0%nat)) 2%nat 9%nat
          {| ReplicationLinks :=
               [{| TabletAlias_ := 1%nat; Parent := 7%nat |};
                {| TabletAlias_ := 2%nat; Parent := 7%nat |}] |})).
Proof.
  refine (proj1 (proj1 (one_link_per_tablet_kept
                          (λ a : nat, bool_decide (a = 0%nat)) 2%nat 9%nat _) _)).
  unfold one_link_per_tablet. simpl.
  apply NoDup_cons. split; [|apply NoDup_singleton].
  intros H. apply list_elem_of_singleton in H. discriminate H.
Defined.

(** The first record of a shard, on a server that has no object for it. *)
Lemma AddShardReplicationRecord_stored_witness :
  let out :=
    AddShardReplicationRecord MemServer.ts "ks" "0" ("cell", 1%nat) ("cell", 2%nat)
      (MemServer.start {| MemServer.objects := ∅; MemServer.tablets := ∅ |}) in
  out.1 = None ∧
  MemServer.read (topo out.2) ("cell", "ks", "0")
  = Some {| ReplicationLinks :=
              [{| TabletAlias_ := ("cell", 1%nat); Parent := ("cell", 2%nat) |}] |}.
Proof.
  destruct (AddShardReplicationRecord_stored MemServer.ts MemServer.read MemServer_stores
              "ks" "0" ("cell", 1%nat) ("cell", 2%nat)
              (MemServer.start {| MemServer.objects := ∅; MemServer.tablets := ∅ |}))
    as (H1 & H2 & _).
  split; [exact H1|exact H2].
Defined.

(** A removal on a server that has no object for the shard. *)
Lemma RemoveShardReplicationRecord_stored_witness :
  let st := MemServer.start {| MemServer.objects := ∅; MemServer.tablets := ∅ |} in
  let out := RemoveShardReplicationRecord MemServer.ts "ks" "0" ("cell", 1%nat) st in
  out.1 = Some MemServer.no_node ∧ topo out.2 = topo st.
Proof.
  exact (RemoveShardReplicationRecord_stored MemServer.ts MemServer.read MemServer_stores
           "ks" "0" ("cell", 1%nat)
           (MemServer.start {| MemServer.objects := ∅; MemServer.tablets := ∅ |})).
Defined.

(** Tablet 1 is healthy, tablet 2 is scrapped and tablet 3 is missing:
    the record of tablet 2 is removed and tablet 3 is not looked up. *)
Lemma FixShardReplication_first_problem_witness :
  let link uid := {| TabletAlias_ := ("cell", uid); Parent := ("cell", 9%nat) |} in
  let w := {| MemServer.objects :=
                {[ ("cell", "ks", "0") :=
                     {| ReplicationLinks := [link 1%nat; link 2%nat; link 3%nat] |} ]};
              MemServer.tablets := {[ ("cell", 1%nat) := false; ("cell", 2%nat) := true ]} |} in
  FixShardReplication MemServer.ts "cell" "ks" "0" (MemServer.start w)
  = RemoveShardReplicationRecord MemServer.ts "ks" "0" ("cell", 2%nat)
      {| topo := w;
         topo_calls := [CallGetShardReplication "cell" "ks" "0";
                        CallGetTablet ("cell", 1%nat); CallGetTablet ("cell", 2%nat)] |}.
Proof.
  intros link w.
  refine (proj1 (FixShardReplication_first_problem MemServer.ts w
                   (λ a, (GetTablet MemServer.ts a w).1) (λ a, eq_refl)
                   "cell" "ks" "0" (MemServer.start w)
                   {| ReplicationLinks := [link 1%nat; link 2%nat; link 3%nat] |} eq_refl)
            [link 1%nat] (link 2%nat) [link 3%nat] eq_refl _ _).
  - intros l Hl. apply list_elem_of_singleton in Hl. rewrite Hl. by exists false.
  - right. by exists true.
Defined.

(** A keyspace that resolves to no shard at all. *)
Lemma StreamExecute_not_one_shard_witness :
  StreamExecute (Scripted.env (Ok "user")) "select 1" ∅ "user" () ()
    (Scripted.mapToShards (Ok []) (Ok [])) () Scripted.start
  = (Some (errorString "Resolved to more than one shard"),
     {| world := 0%nat; calls := [CallMapToShards "user" None] |}).
Proof.
  apply (StreamExecute_not_one_shard (Scripted.env (Ok "user")) "select 1" ∅ "user" () ()
           (Scripted.mapToShards (Ok []) (Ok [])) () Scripted.start [] 0%nat);
    [reflexivity|discriminate].
Defined.

(** Five turns in the flapping world: five dispatches and no result. *)
Lemma Execute_loop_unbounded_witness :
  (Execute_loop Flapping.env 5 "select 1" ∅ () () Flapping.mapToShards
     "user" ["0"] Scripted.start).1 = None ∧
  length (filter is_dispatch
    (calls (Execute_loop Flapping.env 5 "select 1" ∅ () () Flapping.mapToShards
              "user" ["0"] Scripted.start).2)) = 5%nat.
Proof.
  exact (Execute_loop_unbounded Flapping.env (λ w _ shards, shards = Flapping.shards_at w)
           "select 1" ∅ () () Flapping.mapToShards Flapping_step
           5%nat "user" ["0"] Scripted.start eq_refl).
Defined.

(** The topology is down at the first resolution. *)
Lemma resolution_error_returned_witness :
  Execute (Scripted.env (Ok "user")) 1 "select 1" ∅ "user" () ()
    (Scripted.mapToShards (Err (errorString "down")) (Ok ["0"])) Scripted.start
  = (Some (Err (errorString "down")),
     {| world := 0%nat; calls := [CallMapToShards "user" (Some (errorString "down"))] |}).
Proof.
  apply (proj1 (resolution_error_returned (Scripted.env (Ok "user"))) 1%nat "select 1" ∅
           "user" () () (Scripted.mapToShards (Err (errorString "down")) (Ok ["0"]))
           Scripted.start (errorString "down") 0%nat).
  reflexivity.
Defined.

(** The second dispatch of the scripted world succeeds. *)
Lemma dispatch_outcome_returned_witness :
  Execute_turn (Scripted.env (Ok "user")) "select 1" ∅ () ()
    (Scripted.mapToShards (Ok ["0"]) (Ok ["0"])) "user" ["0"]
    {| world := 1%nat; calls := [] |}
  = (Return (Ok ()),
     {| world := 2%nat; calls := [CallDispatch "user" ["0"] None] |}).
Proof.
  apply (proj1 (dispatch_outcome_returned (Scripted.env (Ok "user"))) "select 1" ∅ () ()
           (Scripted.mapToShards (Ok ["0"]) (Ok ["0"])) "user" ["0"]
           {| world := 1%nat; calls := [] |} (Ok ()) 2%nat);
    [reflexivity|discriminate].
Defined.

(** The topology is down after the RETRY. *)
Lemma reresolution_error_returned_witness :
  Execute_turn (Scripted.env (Ok "user")) "select 1" ∅ () ()
    (Scripted.mapToShards (Ok ["0"]) (Err (errorString "down"))) "user" ["0"]
    Scripted.start
  = (Return (Err (errorString "down")),
     {| world := 1%nat;
        calls := [CallDispatch "user" ["0"] (Some Scripted.retry_error);
                  CallGetKeyspaceAlias "user" None;
                  CallMapToShards "user" (Some (errorString "down"))] |}).
Proof.
  apply (proj1 (reresolution_error_returned (Scripted.env (Ok "user"))) "select 1" ∅ () ()
           (Scripted.mapToShards (Ok ["0"]) (Err (errorString "down"))) "user" ["0"]
           Scripted.start Scripted.retry_error 1%nat (Ok "user") 1%nat
           (errorString "down") 1%nat); reflexivity.
Defined.

(** The turn that sees ["0"] split in two goes round with other shards. *)
Lemma retry_only_on_change_witness :
  "user" ≠ "user" ∨ ¬ ["-80"; "80-"] ≡ₚ ["0"].
Proof.
  apply (proj1 (retry_only_on_change (Scripted.env (Ok "user"))) "select 1" ∅ () ()
           (Scripted.mapToShards (Ok ["0"]) (Ok ["-80"; "80-"])) "user" ["0"]
           Scripted.start
           {| world := 1%nat;
              calls := [CallDispatch "user" ["0"] (Some Scripted.retry_error);
                        CallGetKeyspaceAlias "user" None;
                        CallMapToShards "user" None] |}
           "user" ["-80"; "80-"]).
  reflexivity.
Defined.

(** RETRY of a batch without a change of the topology. *)
Lemma retry_without_resharding_returned_witness :
  ExecuteBatch_turn (Scripted.env (Ok "user")) [] () ()
    (Scripted.mapToShards (Ok ["0"]) (Ok ["0"])) "user" ["0"] Scripted.start
  = (Return (Err Scripted.retry_error),
     {| world := 1%nat;
        calls := [CallDispatch "user" ["0"] (Some Scripted.retry_error);
                  CallGetKeyspaceAlias "user" None;
                  CallMapToShards "user" None] |}).
Proof.
  apply (proj1 (retry_without_resharding_returned (Scripted.env (Ok "user"))) [] () ()
           (Scripted.mapToShards (Ok ["0"]) (Ok ["0"])) "user" ["0"] ["0"]
           Scripted.start Scripted.retry_error 1%nat 1%nat 1%nat); reflexivity.
Defined.






